(** * specrec: spectral-peak fingerprinting and matching

    A shallow embedding of the fingerprinting core of the repository
    ([audio_processing.py], [database_keyfunctions.py]) and the properties
    its specification states about it.

    Modelling conventions.
    - Python integers and NumPy index values are [Z]; peak coordinates are
      array indices, on which NumPy's 64-bit subtraction is exact.
    - Log-amplitudes are rationals [Q]: the code only compares amplitudes
      ([<=], [<]), and every finite binary64 value is a rational.  IEEE
      not-a-number values are outside the model.
    - Floats the code computes with (the percentile, a clip length) are IEEE
      binary64 numbers: [spec_float] of the Standard Library with precision
      53 and exponent bound 1024, whose product rounds to nearest, ties to
      even.
    - A NumPy 2-D array is its shape together with its row-major buffer.
    - The fingerprint store is a [defaultdict(list)] (it is created that way
      in [populate_database] and pickled as such): a finite map whose
      [__getitem__] inserts an empty list on a miss.
    - The tally is a [defaultdict(int)]; Python dictionaries iterate in
      insertion order, so it is an association list in insertion order.
    - Raised exceptions are explicit: functions that can raise return an
      [outcome]. *)

From Stdlib Require Import ZArith QArith Qround Qpower Lqa Lia List Sorted Permutation.
From Stdlib Require Import SpecFloat.
From stdpp Require Import gmap list strings.

(** ** Python and NumPy primitives *)

Inductive exn : Type :=
| ValueError
| IndexError
| AssertionError
| OverflowError.

Inductive outcome (A : Type) : Type :=
| Return (a : A)
| Raise (e : exn).
Arguments Return {A} a.
Arguments Raise {A} e.

#[global] Instance outcome_ret : MRet outcome := fun A a => Return a.
#[global] Instance outcome_bind : MBind outcome := fun A B k o =>
  match o with
  | Return a => k a
  | Raise e => Raise e
  end.

(** [l[i]] on a Python list or a 1-D array: negative indices count from the
    end, anything else out of range is an [IndexError] ([None] here). *)
Definition py_getitem {A : Type} (l : list A) (i : Z) : option A :=
  let n := Z.of_nat (length l) in
  if (0 <=? i)%Z then nth_error l (Z.to_nat i)
  else if (- n <=? i)%Z then nth_error l (Z.to_nat (n + i))
  else None.

(** One bound of a slice [l[lo:hi]], clamped the way Python clamps it. *)
Definition slice_bound (n i : Z) : Z :=
  if (i <? 0)%Z then Z.max 0 (n + i) else Z.min i n.

(** [l[lo:hi]] with unit step. *)
Definition py_slice {A : Type} (l : list A) (lo hi : Z) : list A :=
  let n := Z.of_nat (length l) in
  let s := slice_bound n lo in
  let e := slice_bound n hi in
  firstn (Z.to_nat (e - s)) (skipn (Z.to_nat s) l).

(** [max(l)]: the first of the greatest elements; [ValueError] on an empty
    sequence.  The running maximum is replaced only by a strictly greater
    element. *)
Definition py_max_from {A : Type} (key : A -> Z) (x : A) (l : list A) : A :=
  fold_left (fun best y => if (key best <? key y)%Z then y else best) l x.

Definition py_max {A : Type} (key : A -> Z) (l : list A) : outcome A :=
  match l with
  | [] => Raise ValueError
  | x :: rest => Return (py_max_from key x rest)
  end.

(** [round(x)] to an integer: round half to even.  The argument is the exact
    rational value of the binary64 product. *)
Definition py_round (x : Q) : Z :=
  let f := Qfloor x in
  match Qcompare (x - inject_Z f) (1 # 2) with
  | Lt => f
  | Gt => (f + 1)%Z
  | Eq => if Z.even f then f else (f + 1)%Z
  end.

Definition Qlt_bool (x y : Q) : bool := negb (Qle_bool y x).

(** The product of two floats. *)
Definition float_mul (x y : spec_float) : spec_float := SFmul 53 1024 x y.

(** The float an integer is converted to when it meets a float in a product:
    the nearest one, [OverflowError] when the integer is too large. *)
Definition float_of_int (z : Z) : outcome spec_float :=
  match binary_normalize 53 1024 z 0 false with
  | S754_infinity _ => Raise OverflowError
  | f => Return f
  end.

(** The float that the decimal literal for [num / den] denotes, the binary64
    number nearest to the quotient, for integers below [2 ^ 53]. *)
Definition float_literal (num den : Z) : spec_float :=
  SFdiv 53 1024 (binary_normalize 53 1024 num 0 false)
                (binary_normalize 53 1024 den 0 false).

(** The exact value of a finite float. *)
Definition float_value (f : spec_float) : Q :=
  match f with
  | S754_finite s m e =>
      (if s then - (inject_Z (Zpos m) * Qpower 2 e) else inject_Z (Zpos m) * Qpower 2 e)%Q
  | _ => 0%Q
  end.

(** [round(x)] on a float: half to even on its exact value; an infinity is
    an [OverflowError], a not-a-number a [ValueError]. *)
Definition py_round_float (f : spec_float) : outcome Z :=
  match f with
  | S754_nan => Raise ValueError
  | S754_infinity _ => Raise OverflowError
  | _ => Return (py_round (float_value f))
  end.

(** A 2-D array: [shape0] rows, [shape1] columns, row-major buffer. *)
Record ndarray (A : Type) : Type := mk_ndarray {
  shape0 : nat;
  shape1 : nat;
  buf : list A
}.
Arguments mk_ndarray {A} _ _ _.
Arguments shape0 {A} _.
Arguments shape1 {A} _.
Arguments buf {A} _.

(** [a[r, c]] for an in-bounds index pair. *)
Definition getitem {A : Type} (dflt : A) (a : ndarray A) (r c : Z) : A :=
  nth (Z.to_nat (r * Z.of_nat (shape1 a) + c)) (buf a) dflt.

Definition ravel {A : Type} (a : ndarray A) : list A := buf a.

(** [np.ndindex(n0, n1)]: all index pairs, the last index varying fastest. *)
Definition ndindex (n0 n1 : nat) : list (Z * Z) :=
  flat_map (fun i => map (fun j => (Z.of_nat i, Z.of_nat j)) (seq 0 n1)) (seq 0 n0).

(** [np.where(mask)] on a 2-D boolean array: the row indices and the column
    indices of the true cells, in row-major order. *)
Definition np_where (mask : ndarray bool) : list Z * list Z :=
  let hits :=
    List.filter (fun '(r, c) => getitem false mask r c)
                (ndindex (shape0 mask) (shape1 mask)) in
  (map fst hits, map snd hits).

(** [np.partition(a, kth)] is a NumPy routine (introselect).  It is modelled
    by a three-way quickselect, which produces one of the layouts NumPy's
    contract allows: the element at [kth] is the one a full sort would put
    there, smaller elements come before it and greater-or-equal ones after.
    [select_partition] is run with [fuel] equal to the length of the list,
    which is always enough. *)
Fixpoint select_partition (fuel : nat) (l : list Q) (k : nat) : list Q :=
  match fuel with
  | O => l
  | S fuel' =>
      match l with
      | [] => []
      | pivot :: _ =>
          let lo := List.filter (fun x => Qlt_bool x pivot) l in
          let eq := List.filter (fun x => Qeq_bool x pivot) l in
          let hi := List.filter (fun x => Qlt_bool pivot x) l in
          if (k <? length lo)%nat then
            select_partition fuel' lo k ++ eq ++ hi
          else if (k <? length lo + length eq)%nat then
            lo ++ eq ++ hi
          else
            lo ++ eq ++ select_partition fuel' hi (k - length lo - length eq)
      end
  end.

(** A negative [kth] counts from the end; a [kth] out of bounds is a
    [ValueError], except on an empty array, where NumPy does not check
    [kth] and returns the empty array. *)
Definition np_partition (a : list Q) (kth : Z) : outcome (list Q) :=
  let n := Z.of_nat (length a) in
  let k := if (kth <? 0)%Z then (kth + n)%Z else kth in
  if Nat.eqb (length a) 0 then Return a
  else if ((0 <=? k)%Z && (k <? n)%Z)%bool then
    Return (select_partition (length a) a (Z.to_nat k))
  else Raise ValueError.

(** ** Configuration

    The module [audio_processing_config] that defines [cfg] is not part of
    the sources; its three entries are parameters.  The neighborhood mask is
    built from [neighborhood_iterations] by SciPy
    ([generate_binary_structure], [iterate_structure]) and is passed in as
    the resulting boolean array. *)
Record configs : Type := mk_configs {
  amp_threshold_pct : spec_float;
  fanout_size : Z;
  neighborhood : ndarray bool
}.

(** ** audio_processing.py *)

(** The inner loop of [_peaks] over the zipped neighborhood offsets.  [true]
    means the loop ran to its end, so its [else] branch is taken; [false]
    means it left through [break]. *)
Fixpoint neighbor_scan (data_2d : ndarray Q) (r c : Z) (offsets : list (Z * Z)) : bool :=
  match offsets with
  | [] => true
  | (dr, dc) :: rest =>
      if ((dr =? 0)%Z && (dc =? 0)%Z)%bool then neighbor_scan data_2d r c rest
      else if negb ((0 <=? r + dr)%Z && (r + dr <? Z.of_nat (shape0 data_2d))%Z) then
        neighbor_scan data_2d r c rest
      else if negb ((0 <=? c + dc)%Z && (c + dc <? Z.of_nat (shape1 data_2d))%Z) then
        neighbor_scan data_2d r c rest
      else if Qlt_bool (getitem 0%Q data_2d r c) (getitem 0%Q data_2d (r + dr) (c + dc)) then
        false
      else neighbor_scan data_2d r c rest
  end.

(** One iteration of the outer loop of [_peaks] at the cell [(r, c)]. *)
Definition peaks_step (data_2d : ndarray Q) (offsets : list (Z * Z)) (amp_min : Q)
    (peaks : list (Z * Z)) (cr : Z * Z) : list (Z * Z) :=
  let '(c, r) := cr in
  if Qle_bool (getitem 0%Q data_2d r c) amp_min then peaks
  else if neighbor_scan data_2d r c offsets then peaks ++ [(r, c)]
  else peaks.

Definition _peaks (data_2d : ndarray Q) (nbrhd_row_offsets nbrhd_col_offsets : list Z)
    (amp_min : Q) : list (Z * Z) :=
  fold_left (peaks_step data_2d (zip nbrhd_row_offsets nbrhd_col_offsets) amp_min)
            (ndindex (shape1 data_2d) (shape0 data_2d)) [].

Definition _local_peak_locations (data_2d : ndarray Q) (nbrhd : ndarray bool)
    (amp_min : Q) : outcome (list (Z * Z)) :=
  if negb (Nat.eqb (shape0 nbrhd mod 2) 1) then Raise AssertionError
  else if negb (Nat.eqb (shape1 nbrhd mod 2) 1) then Raise AssertionError
  else
    let '(nbrhd_row_indices, nbrhd_col_indices) := np_where nbrhd in
    let nbrhd_row_offsets :=
      map (fun i => (i - Z.of_nat (shape0 nbrhd / 2))%Z) nbrhd_row_indices in
    let nbrhd_col_offsets :=
      map (fun i => (i - Z.of_nat (shape1 nbrhd / 2))%Z) nbrhd_col_indices in
    Return (_peaks data_2d nbrhd_row_offsets nbrhd_col_offsets amp_min).

(** [round(len(data) * cfg["amp_threshold_pct"])]: the length is converted
    to a float, the product is the binary64 product, and [round] rounds
    that. *)
Definition cutoff_index (cfg : configs) (n : nat) : outcome Z :=
  len ← float_of_int (Z.of_nat n);
  py_round_float (float_mul len (amp_threshold_pct cfg)).

Definition _find_cutoff (cfg : configs) (spectrogram : ndarray Q) : outcome Q :=
  let data := ravel spectrogram in
  idx ← cutoff_index cfg (length data);
  part ← np_partition data idx;
  match py_getitem part idx with
  | Some v => Return v
  | None => Raise IndexError
  end.

Definition extract_local_peak_idxs (cfg : configs) (spectrogram : ndarray Q)
    : outcome (list (Z * Z)) :=
  cutoff ← _find_cutoff cfg spectrogram;
  _local_peak_locations spectrogram (neighborhood cfg) cutoff.

(** A peak is an [(f, t)] pair; the encoding of a pair of peaks is
    [(fm, fn, tn - tm)]. *)
Definition _form_pair_encoding (peak_m peak_n : Z * Z) : Z * Z * Z :=
  (fst peak_m, fst peak_n, (snd peak_n - snd peak_m)%Z).

(** The body of the outer loop of [form_fingerprints] for the anchor [idx]
    at position [i]: the fanout group of that anchor. *)
Definition fanout_group (fanout : Z) (local_peaks_idx : list (Z * Z)) (i : nat)
    (idx : Z * Z) : list (Z * Z * Z * Z) :=
  let fanout_local_peaks :=
    py_slice local_peaks_idx (Z.of_nat i + 1) (Z.of_nat i + fanout + 1) in
  map (fun close_peak => (_form_pair_encoding idx close_peak, snd idx)) fanout_local_peaks.

Definition form_fingerprints (cfg : configs) (local_peaks_idx : list (Z * Z))
    : list (list (Z * Z * Z * Z)) :=
  imap (fanout_group (fanout_size cfg) local_peaks_idx) local_peaks_idx.

(** ** database_keyfunctions.py *)

(** [database[key]] on a [defaultdict(list)]: the stored list, or on a miss
    a fresh empty list that is also inserted under [key]. *)
Definition db_getitem (key : Z * Z * Z) (database : gmap (Z * Z * Z) (list (Z * Z)))
    : list (Z * Z) * gmap (Z * Z * Z) (list (Z * Z)) :=
  match database !! key with
  | Some entries => (entries, database)
  | None => ([], <[key := []]> database)
  end.

(** [database[key].append(x)]: the list object found (or created) under
    [key] is extended in place. *)
Definition db_append (key : Z * Z * Z) (x : Z * Z)
    (database : gmap (Z * Z * Z) (list (Z * Z))) : gmap (Z * Z * Z) (list (Z * Z)) :=
  let '(entries, database') := db_getitem key database in
  <[key := entries ++ [x]]> database'.

Definition store_fingerprint (fingerprints : list (list (Z * Z * Z * Z))) (songID : Z)
    (database : gmap (Z * Z * Z) (list (Z * Z))) : gmap (Z * Z * Z) (list (Z * Z)) :=
  fold_left
    (fun database fingerprint =>
       fold_left (fun database '(key, ts) => db_append key (songID, ts) database)
                 fingerprint database)
    fingerprints database.

(** [tallies[key] += 1] on a [defaultdict(int)]: a key met for the first
    time is created (at the end of the iteration order) with count 1, a key
    already present keeps its place. *)
Fixpoint tallies_incr (key : Z * Z) (tallies : list (Z * Z * Z)) : list (Z * Z * Z) :=
  match tallies with
  | [] => [(key, 1%Z)]
  | (k, n) :: rest =>
      if decide (k = key) then (k, (n + 1)%Z) :: rest
      else (k, n) :: tallies_incr key rest
  end.

(** [tallies.get(key)] for the keys of [tallies]; the value is 0 for a key
    that is not there, which [max] never asks for. *)
Fixpoint tallies_get (tallies : list (Z * Z * Z)) (key : Z * Z) : Z :=
  match tallies with
  | [] => 0%Z
  | (k, n) :: rest => if decide (k = key) then n else tallies_get rest key
  end.

(** The innermost loop of [query_database], over the list found in the
    store. *)
Definition tally_entries (tc : Z) (entries : list (Z * Z)) (tallies : list (Z * Z * Z))
    : list (Z * Z * Z) :=
  fold_left (fun tallies '(songID, ts) => tallies_incr (songID, (ts - tc)%Z) tallies)
            entries tallies.

(** The three nested loops of [query_database]: the tally and the store as
    they are when the loops end. *)
Definition query_tallies (fingerprints : list (list (Z * Z * Z * Z)))
    (database : gmap (Z * Z * Z) (list (Z * Z)))
    : list (Z * Z * Z) * gmap (Z * Z * Z) (list (Z * Z)) :=
  fold_left
    (fun st fingerprint =>
       fold_left
         (fun '(tallies, database) '(key, tc) =>
            let '(entries, database') := db_getitem key database in
            (tally_entries tc entries tallies, database'))
         fingerprint st)
    fingerprints ([], database).

Definition no_match_message : string :=
  "This song does not match any other song in the database".

Definition match_message (info : string * string) : string :=
  "The song that matches this is " +:+ fst info +:+ " by " +:+ snd info +:+ ".".

(** The decision at the end of [query_database], on the finished tally. *)
Definition query_decision (tallies : list (Z * Z * Z)) (songIDs : list (string * string))
    : outcome string :=
  votes ← py_max (fun v => v) (map snd tallies);
  if (votes =? 0)%Z then Return no_match_message
  else
    best ← py_max (tallies_get tallies) (map fst tallies);
    let final_ID := fst best in
    match py_getitem songIDs final_ID with
    | Some info => Return (match_message info)
    | None => Raise IndexError
    end.

(** [query_database] returns its result (or raises) and leaves the store in
    the state the lookups put it in. *)
Definition query_database (fingerprints : list (list (Z * Z * Z * Z)))
    (database : gmap (Z * Z * Z) (list (Z * Z))) (songIDs : list (string * string))
    : outcome string * gmap (Z * Z * Z) (list (Z * Z)) :=
  let '(tallies, database') := query_tallies fingerprints database in
  (query_decision tallies songIDs, database').

(** ** RandomSamples.py *)

(** Truncation toward zero. *)
Definition py_int (x : Q) : Z := if Qle_bool 0 x then Qfloor x else Qceiling x.

(** [int(x)] on a float: its exact value truncated; an infinity is an
    [OverflowError], a not-a-number a [ValueError]. *)
Definition py_int_float (f : spec_float) : outcome Z :=
  match f with
  | S754_nan => Raise ValueError
  | S754_infinity _ => Raise OverflowError
  | _ => Return (py_int (float_value f))
  end.

(** A number handed to [random_samples] as clip length: the signature asks
    for a float, [populate_database] passes the integer 5. *)
Inductive pynumber : Type :=
| PyInt (z : Z)
| PyFloat (x : spec_float).

(** [int(length * freq)] for an integer [freq]: the exact product when the
    length is an integer, else the truncated binary64 product of the length
    and the converted [freq]. *)
Definition clip_size (clip_length : pynumber) (freq : Z) : outcome Z :=
  match clip_length with
  | PyInt z => Return (z * freq)%Z
  | PyFloat x => f ← float_of_int freq; py_int_float (float_mul x f)
  end.

(** [random.randint(a, b)]: some integer of [a..b], [ValueError] when the
    range is empty.  The pseudo-random generator is an input: [raw] is the
    number it supplies for this call, reduced into the range, so that every
    integer of the range is a possible result and nothing else is. *)
Definition randint (a b raw : Z) : outcome Z :=
  if (a <=? b)%Z then Return (a + raw mod (b - a + 1))%Z else Raise ValueError.

(** A loop whose body can raise: the first exception ends it. *)
Fixpoint outcome_fold {A S : Type} (body : S -> A -> outcome S) (l : list A) (s : S)
    : outcome S :=
  match l with
  | [] => Return s
  | a :: rest => s' ← body s a; outcome_fold body rest s'
  end.

(** [row[...] = values] for a row of [width] cells: the lengths agree, or a
    single value is broadcast, or NumPy raises [ValueError]. *)
Definition assign_row (width : nat) (values : list Q) : outcome (list Q) :=
  if Nat.eqb (length values) width then Return values
  else match values with
       | [x] => Return (replicate width x)
       | _ => Raise ValueError
       end.

(** [RandomSamples.random_samples]; [entropy i] is what the generator
    supplies in iteration [i]. *)
Definition random_samples (entropy : nat -> Z) (samples : list Q) (freq : Z) (n : Z)
    (clip_length : pynumber) : outcome (list (list Q)) :=
  let original_number_of_samples := Z.of_nat (length samples) in
  samples_per_clip ← clip_size clip_length freq;
  if ((n <? 0)%Z || (samples_per_clip <? 0)%Z)%bool then Raise ValueError
  else
    let result := replicate (Z.to_nat n) (replicate (Z.to_nat samples_per_clip) 0%Q) in
    let latest_start := (original_number_of_samples - samples_per_clip)%Z in
    outcome_fold
      (fun result i =>
         start ← randint 0 latest_start (entropy i);
         row ← assign_row (Z.to_nat samples_per_clip)
                 (py_slice samples start (start + samples_per_clip));
         Return (<[i := row]> result))
      (seq 0 (Z.to_nat n)) result.

(** ** database_utils.py *)

(** What [populate_database] gets from outside the fingerprinting core:
    the decoded recording of a file ([ConvertAudioRecordings.samples_file],
    librosa), the spectrogram of a recording ([produce_spectrogram],
    matplotlib's [specgram] followed by a clipped logarithm) and the numbers
    the pseudo-random generator supplies for song [i], clip [j]. *)
Record environment : Type := mk_environment {
  samples_file : string -> outcome (list Q * Z);
  produce_spectrogram : list Q -> Z -> outcome (ndarray Q * list Q * list Q);
  entropy : nat -> nat -> Z
}.

(** [enumerate(l)] *)
Definition enumerate {A : Type} (l : list A) : list (nat * A) := zip (seq 0 (length l)) l.

(** The body of the loop over [samples]: it fingerprints the whole
    recording, whatever the clip is. *)
Definition populate_clip (env : environment) (cfg : configs) (recorded_audio : list Q)
    (sampling_rate : Z) (i : nat) (database : gmap (Z * Z * Z) (list (Z * Z)))
    (sample : list Q) : outcome (gmap (Z * Z * Z) (list (Z * Z))) :=
  '(spectrogram, freqs, times) ← produce_spectrogram env recorded_audio sampling_rate;
  local_peaks_ind ← extract_local_peak_idxs cfg spectrogram;
  let fingerprints := form_fingerprints cfg local_peaks_ind in
  Return (store_fingerprint fingerprints (Z.of_nat i) database).

(** The body of the loop over the songs. *)
Definition populate_song (env : environment) (cfg : configs)
    (st : gmap (Z * Z * Z) (list (Z * Z)) * list (string * string))
    (item : nat * (string * (string * string)))
    : outcome (gmap (Z * Z * Z) (list (Z * Z)) * list (string * string)) :=
  let '(database, id_to_info) := st in
  let '(i, (path, (song_name, artist_name))) := item in
  '(recorded_audio, sampling_rate) ← samples_file env path;
  samples ← random_samples (entropy env i) recorded_audio sampling_rate 20 (PyInt 5);
  database' ← outcome_fold (populate_clip env cfg recorded_audio sampling_rate i)
                           samples database;
  Return (database', id_to_info ++ [(song_name, artist_name)]).

(** [populate_database]: the two objects it hands to [save_database], the
    store and the catalog. *)
Definition populate_database (env : environment) (cfg : configs)
    (database_path id_path : string) (song_paths song_names artist_names : list string)
    : outcome (gmap (Z * Z * Z) (list (Z * Z)) * list (string * string)) :=
  outcome_fold (populate_song env cfg)
               (enumerate (zip song_paths (zip song_names artist_names)))
               (∅, []).

(** ** Specification vocabulary

    The notions the properties below are stated with.  They are derived
    from the code above and are not part of it. *)

(** A cell [(r, c)] lies inside the array. *)
Definition in_bounds (data_2d : ndarray Q) (r c : Z) : Prop :=
  (0 <= r < Z.of_nat (shape0 data_2d))%Z /\ (0 <= c < Z.of_nat (shape1 data_2d))%Z.

(** The amplitude at the peak [p = (row, col)] is strictly above [amp_min]. *)
Definition above_cutoff (data_2d : ndarray Q) (amp_min : Q) (p : Z * Z) : Prop :=
  (amp_min < getitem 0%Q data_2d (fst p) (snd p))%Q.

(** Column-major order on [(row, col)] pairs: by column, then by row. *)
Definition column_major_lt (p q : Z * Z) : Prop :=
  (snd p < snd q)%Z \/ (snd p = snd q /\ (fst p < fst q)%Z).

(** The order of two peaks [(f, t)] by time alone. *)
Definition time_le (p q : Z * Z) : Prop := (snd p <= snd q)%Z.

(** The traversal order of [np.ndindex]: lexicographic, first index first. *)
Definition ndindex_lt (p q : Z * Z) : Prop :=
  (fst p < fst q)%Z \/ (fst p = fst q /\ (snd p < snd q)%Z).

(** The test [_peaks] applies to the cell visited at the loop index
    [cr = (c, r)]. *)
Definition is_peak (data_2d : ndarray Q) (offsets : list (Z * Z)) (amp_min : Q)
    (cr : Z * Z) : bool :=
  negb (Qle_bool (getitem 0%Q data_2d (snd cr) (fst cr)) amp_min)
  && neighbor_scan data_2d (snd cr) (fst cr) offsets.

Definition swap_pair (cr : Z * Z) : Z * Z := (snd cr, fst cr).

Definition count_lt (v : Q) (l : list Q) : nat :=
  length (List.filter (fun x => Qlt_bool x v) l).

Definition count_le (v : Q) (l : list Q) : nat :=
  length (List.filter (fun x => Qle_bool x v) l).

(** [v] is the element of rank [k] (counting from 0) of [l] in ascending
    order: it occurs in [l], at most [k] elements are smaller, and more than
    [k] elements are smaller or equal. *)
Definition has_rank (l : list Q) (k : nat) (v : Q) : Prop :=
  In v l /\ (count_lt v l <= k < count_le v l)%nat.

(** [w] is the first of the greatest elements of [l]. *)
Definition first_max {A : Type} (key : A -> Z) (w : A) (l : list A) : Prop :=
  exists l1 l2, l = l1 ++ w :: l2 /\
    (forall y, In y l1 -> (key y < key w)%Z) /\
    (forall y, In y l2 -> (key y <= key w)%Z).

(** What a lookup yields, whether the key is present or not. *)
Definition lookup_entries (database : gmap (Z * Z * Z) (list (Z * Z))) (key : Z * Z * Z)
    : list (Z * Z) :=
  default [] (database !! key).

(** The store after a lookup of [key]. *)
Definition db_touch (database : gmap (Z * Z * Z) (list (Z * Z))) (key : Z * Z * Z)
    : gmap (Z * Z * Z) (list (Z * Z)) :=
  snd (db_getitem key database).

(** The (songID, offset) pairs one query entry votes for, in the order of
    the stored list. *)
Definition entry_hits (database : gmap (Z * Z * Z) (list (Z * Z))) (entry : Z * Z * Z * Z)
    : list (Z * Z) :=
  map (fun st => (fst st, (snd st - snd entry)%Z)) (lookup_entries database (fst entry)).

(** All votes of a query in traversal order: groups, entries within a group,
    stored list under each key. *)
Definition query_hits (fingerprints : list (list (Z * Z * Z * Z)))
    (database : gmap (Z * Z * Z) (list (Z * Z))) : list (Z * Z) :=
  flat_map (entry_hits database) (concat fingerprints).

(** The keys a query looks up, in traversal order. *)
Definition query_keys (fingerprints : list (list (Z * Z * Z * Z))) : list (Z * Z * Z) :=
  map fst (concat fingerprints).

(** The number of votes for [key] among [hits]. *)
Definition votes (key : Z * Z) (hits : list (Z * Z)) : Z :=
  Z.of_nat (length (List.filter (fun h => bool_decide (h = key)) hits)).

(** The distinct elements of a list in the order of their first occurrence. *)
Definition first_occurrences_from (seen l : list (Z * Z)) : list (Z * Z) :=
  fold_left (fun seen x => if decide (x ∈ seen) then seen else seen ++ [x]) l seen.

Definition first_occurrences (l : list (Z * Z)) : list (Z * Z) :=
  first_occurrences_from [] l.

(** What [store_fingerprint] appends under [key] for the entries [es]. *)
Definition entries_for (songID : Z) (key : Z * Z * Z) (es : list (Z * Z * Z * Z))
    : list (Z * Z) :=
  map (fun e => (songID, snd e)) (List.filter (fun e => bool_decide (fst e = key)) es).

Definition sum_Z (l : list Z) : Z := fold_right Z.add 0%Z l.

(** The buffer of a 2-D array holds exactly one value per cell. *)
Definition well_formed {A : Type} (a : ndarray A) : Prop :=
  length (buf a) = (shape0 a * shape1 a)%nat.

Definition count_gt (v : Q) (l : list Q) : nat :=
  length (List.filter (fun x => Qlt_bool v x) l).

(** The offset pairs [_local_peak_locations] hands to [_peaks]. *)
Definition mask_offsets (nbrhd : ndarray bool) : list (Z * Z) :=
  map (fun rc => ((fst rc - Z.of_nat (shape0 nbrhd / 2))%Z,
                  (snd rc - Z.of_nat (shape1 nbrhd / 2))%Z))
      (List.filter (fun '(r, c) => getitem false nbrhd r c)
                   (ndindex (shape0 nbrhd) (shape1 nbrhd))).

(** The (anchor, partner) pairs the encoder visits, in order: every peak
    with the next [fanout] peaks of the list. *)
Fixpoint fanout_pairs (fanout : nat) (peaks : list (Z * Z)) : list ((Z * Z) * (Z * Z)) :=
  match peaks with
  | [] => []
  | anchor :: rest => map (pair anchor) (take fanout rest) ++ fanout_pairs fanout rest
  end.

(** The entry the encoder emits for a pair of peaks. *)
Definition pair_entry (ab : (Z * Z) * (Z * Z)) : Z * Z * Z * Z :=
  (_form_pair_encoding (fst ab) (snd ab), snd (fst ab)).

(** The two peaks an entry was made from. *)
Definition entry_peaks (e : Z * Z * Z * Z) : (Z * Z) * (Z * Z) :=
  let '((fm, fn, dt), ts) := e in ((fm, ts), (fn, (ts + dt)%Z)).

(** [clip] is [width] consecutive samples of [samples]. *)
Definition is_window (samples : list Q) (width : nat) (clip : list Q) : Prop :=
  exists start : nat,
    (start + width <= length samples)%nat /\ clip = take width (drop start samples).

(** The number of copies of [x] in [l]. *)
Definition copies (x : Z * Z) (l : list (Z * Z)) : nat :=
  length (List.filter (fun y => bool_decide (y = x)) l).

(** Every song identifier in the store is an index of a catalog of [m]
    entries. *)
Definition songs_below (m : nat) (database : gmap (Z * Z * Z) (list (Z * Z))) : Prop :=
  forall key songID ts,
    In (songID, ts) (lookup_entries database key) -> (0 <= songID < Z.of_nat m)%Z.

(** Every stored pair occurs a multiple of 20 times under its key. *)
Definition stored_in_twenties (database : gmap (Z * Z * Z) (list (Z * Z))) : Prop :=
  forall key x, exists q, copies x (lookup_entries database key) = (20 * q)%nat.

(** ** Example data *)

Definition example_cfg : configs :=
  mk_configs (float_literal 77 100) 2 (mk_ndarray 1 1 [true]).

Definition example_peaks : list (Z * Z) := [(2, 0); (5, 1); (1, 2); (2, 2)]%Z.

Definition example_groups : list (list (Z * Z * Z * Z)) :=
  form_fingerprints example_cfg example_peaks.

(** Two cells of equal height next to each other. *)
Definition tie_example : ndarray Q := mk_ndarray 1 2 [5 # 1; 5 # 1]%Q.

Definition small_cfg : configs := mk_configs (float_literal 3 4) 2 (mk_ndarray 1 1 [true]).

Definition one_cell : ndarray Q := mk_ndarray 1 1 [0%Q].

Definition no_cell : ndarray Q := mk_ndarray 0 0 [].

(** Percentiles whose binary64 product with the number of cells is a tie. *)
Definition tie_cfg : configs := mk_configs (float_literal 95 100) 2 (mk_ndarray 1 1 [true]).

Definition four_cells : ndarray Q := mk_ndarray 2 2 [4 # 1; 1 # 1; 3 # 1; 2 # 1]%Q.

Definition unrelated_store : gmap (Z * Z * Z) (list (Z * Z)) :=
  {[ (9, 9, 9)%Z := [(0, 5)%Z] ]}.

Definition noise_query : list (list (Z * Z * Z * Z)) := [[((1, 2, 3), 0)%Z]].

Definition one_song : list (string * string) := [("Blinding Lights", "The Weeknd")].

Definition two_songs : list (string * string) :=
  [("Blinding Lights", "The Weeknd");
   ("Eine kleine Nachtmusik", "Wolfgang Amadeus Mozart")].

(** Two songs stored under one key at the same anchor time, song 1 first. *)
Definition tied_store : gmap (Z * Z * Z) (list (Z * Z)) :=
  {[ (1, 2, 3)%Z := [(1, 5); (0, 5)]%Z ]}.

(** One group holding the same entry twice. *)
Definition duplicate_query : list (list (Z * Z * Z * Z)) :=
  [[((1, 1, 1), 0); ((1, 1, 1), 0)]%Z].

Definition ridge_example : ndarray Q :=
  mk_ndarray 2 3 [1 # 1; 7 # 1; 2 # 1; 3 # 1; 4 # 1; 9 # 1]%Q.

Definition cross_mask : ndarray bool :=
  mk_ndarray 3 3 [false; true; false; true; true; true; false; true; false].

Definition ridge_cfg : configs := mk_configs (float_literal 1 2) 2 cross_mask.

Definition tone : list Q := [1 # 1; 2 # 1; 3 # 1; 4 # 1; 5 # 1]%Q.

Definition silent_env : environment :=
  mk_environment
    (fun path => Return (replicate 10 (1 # 1)%Q, 2%Z))
    (fun audio rate => Return (ridge_example, [], []))
    (fun i j => Z.of_nat (i + j)).

Definition silent_populated : gmap (Z * Z * Z) (list (Z * Z)) * list (string * string) :=
  match populate_database silent_env ridge_cfg "database" "songids"
          ["a.mp3"; "b.mp3"] ["Blinding Lights"; "Eine kleine Nachtmusik"]
          ["The Weeknd"; "Wolfgang Amadeus Mozart"; "Frank Sinatra"] with
  | Return st => st
  | Raise _ => (∅, [])
  end.

(** * Properties

    ** The encoder: [form_fingerprints] *)

Lemma py_slice_forward {A : Type} (l : list A) (lo hi : Z) :
  (0 <= lo <= hi)%Z ->
  py_slice l lo hi = take (Z.to_nat (hi - lo)) (drop (Z.to_nat lo) l).
Proof.
  intros Hb. unfold py_slice, slice_bound.
  assert (Hlo : (lo <? 0)%Z = false) by lia.
  assert (Hhi : (hi <? 0)%Z = false) by lia.
  rewrite Hlo, Hhi.
  destruct (Z_le_gt_dec lo (Z.of_nat (length l))) as [Hle | Hgt].
  - rewrite (Z.min_l lo) by lia.
    destruct (Z_le_gt_dec hi (Z.of_nat (length l))) as [Hle' | Hgt'].
    + rewrite Z.min_l by lia. reflexivity.
    + rewrite Z.min_r by lia.
      rewrite !take_ge; first done.
      all: rewrite length_drop; lia.
  - rewrite !drop_ge by lia. by rewrite !take_nil.
Qed.

Lemma fanout_group_forward (fanout : Z) (peaks : list (Z * Z)) (i : nat) (idx : Z * Z) :
  (1 <= fanout)%Z ->
  fanout_group fanout peaks i idx =
    map (fun close_peak => (_form_pair_encoding idx close_peak, snd idx))
        (take (Z.to_nat fanout) (drop (S i) peaks)).
Proof.
  intros Hf. unfold fanout_group. rewrite py_slice_forward by lia.
  do 3 f_equal; lia.
Qed.

(** [C7] For a peak list of length N and [fanout_size >= 1],
    [form_fingerprints] returns exactly N groups, one per anchor index in
    list order.  The group of anchor [i] has [min (i + fanout_size) (N - 1) - i]
    entries: for every partner index [j] with
    [i + 1 <= j <= min (i + fanout_size) (N - 1)] its entry at position
    [j - (i + 1)] is the key [(freq_i, freq_j, time_j - time_i)] paired with
    the anchor time [time_i].  On the peak list [(2,0); (5,1); (1,2); (2,2)]
    with [fanout_size = 2] the groups have lengths [2; 2; 1; 0] and the keys
    of the first group are [(2,5,1); (2,1,2)]. *)
Theorem form_fingerprints_groups (cfg : configs) (peaks : list (Z * Z)) :
  (1 <= fanout_size cfg)%Z ->
  length (form_fingerprints cfg peaks) = length peaks /\
  (forall (i : nat) (anchor : Z * Z),
      peaks !! i = Some anchor ->
      exists group,
        form_fingerprints cfg peaks !! i = Some group /\
        Z.of_nat (length group) =
          (Z.min (Z.of_nat i + fanout_size cfg) (Z.of_nat (length peaks) - 1) - Z.of_nat i)%Z /\
        forall (j : nat) (partner : Z * Z),
          (Z.of_nat i + 1 <= Z.of_nat j
             <= Z.min (Z.of_nat i + fanout_size cfg) (Z.of_nat (length peaks) - 1))%Z ->
          peaks !! j = Some partner ->
          group !! (j - (i + 1))%nat =
            Some ((fst anchor, fst partner, (snd partner - snd anchor)%Z), snd anchor)) /\
  (let groups := form_fingerprints example_cfg example_peaks in
   map length groups = [2; 2; 1; 0]%nat /\
   map fst <$> head groups = Some [(2, 5, 1); (2, 1, 2)]%Z).
Proof.
  intros Hf. split; [|split].
  - unfold form_fingerprints. by rewrite length_imap.
  - intros i anchor Hi. unfold form_fingerprints.
    rewrite list_lookup_imap, Hi. simpl. eexists. split; [reflexivity|].
    rewrite fanout_group_forward by done.
    apply lookup_lt_Some in Hi as Hlt.
    split.
    + rewrite length_map, length_take, length_drop. lia.
    + intros j partner Hj Hp.
      rewrite list_lookup_fmap, lookup_take_lt by lia.
      rewrite lookup_drop.
      replace (S i + (j - (i + 1)))%nat with j by lia.
      by rewrite Hp.
  - vm_compute. done.
Qed.

Lemma form_fingerprints_groups_witness :
  (1 <= fanout_size example_cfg)%Z /\
  length (form_fingerprints example_cfg example_peaks) = length example_peaks.
Proof.
  split; [simpl; lia|].
  apply (form_fingerprints_groups example_cfg example_peaks). simpl. lia.
Defined.

Lemma StronglySorted_lookup_rel {A : Type} (R : A -> A -> Prop) (l : list A) (i j : nat) (x y : A) :
  StronglySorted R l -> (i < j)%nat -> l !! i = Some x -> l !! j = Some y -> R x y.
Proof.
  intros Hs. revert i j. induction Hs as [|a l Hs IH Hall]; intros i j Hij Hx Hy.
  - by rewrite lookup_nil in Hx.
  - destruct j as [|j]; first lia.
    destruct i as [|i]; simpl in *.
    + injection Hx as <-. eapply (proj1 (List.Forall_forall _ _) Hall).
      apply list_elem_of_In. eapply list_elem_of_lookup_2. exact Hy.
    + eapply IH; [|exact Hx|exact Hy]. lia.
Qed.

(** [C8] For a peak list in ascending time order and [fanout_size >= 1],
    every entry of every group is the encoding of the anchor at index [i]
    with a partner at a strictly greater index [j = i + 1 + k], and the time
    difference in its key is not negative. *)
Theorem form_fingerprints_forward_only (cfg : configs) (peaks : list (Z * Z))
    (i k : nat) (group : list (Z * Z * Z * Z)) (key : Z * Z * Z) (anchor_time : Z) :
  (1 <= fanout_size cfg)%Z ->
  StronglySorted time_le peaks ->
  form_fingerprints cfg peaks !! i = Some group ->
  group !! k = Some (key, anchor_time) ->
  exists (j : nat) (anchor partner : Z * Z),
    (i < j)%nat /\ j = (i + 1 + k)%nat /\
    peaks !! i = Some anchor /\ peaks !! j = Some partner /\
    key = _form_pair_encoding anchor partner /\
    anchor_time = snd anchor /\
    (0 <= snd key)%Z.
Proof.
  intros Hf Hsorted Hgroup Hentry.
  unfold form_fingerprints in Hgroup.
  rewrite list_lookup_imap in Hgroup.
  destruct (peaks !! i) as [anchor|] eqn:Hanchor; simpl in Hgroup; [|done].
  injection Hgroup as <-.
  rewrite fanout_group_forward in Hentry by done.
  rewrite list_lookup_fmap in Hentry.
  destruct (take _ _ !! k) as [partner|] eqn:Hpartner; simpl in Hentry; [|done].
  injection Hentry as <- <-.
  apply lookup_take_Some in Hpartner as [Hpartner _].
  rewrite lookup_drop in Hpartner.
  exists (i + 1 + k)%nat, anchor, partner.
  replace (S i + k)%nat with (i + 1 + k)%nat in Hpartner by lia.
  repeat split; try done; try lia.
  simpl.
  assert (time_le anchor partner) as Hle.
  { eapply (StronglySorted_lookup_rel time_le peaks i (i + 1 + k)); eauto. lia. }
  unfold time_le in Hle. lia.
Qed.

Lemma form_fingerprints_forward_only_witness :
  exists (j : nat) (anchor partner : Z * Z),
    (0 < j)%nat /\ j = (0 + 1 + 1)%nat /\
    example_peaks !! 0%nat = Some anchor /\
    example_peaks !! j = Some partner /\
    (2, 1, 2)%Z = _form_pair_encoding anchor partner /\
    0%Z = snd anchor /\
    (0 <= snd (2, 1, 2)%Z)%Z.
Proof.
  apply (form_fingerprints_forward_only example_cfg
           example_peaks 0 1
           [((2, 5, 1), 0); ((2, 1, 2), 0)]%Z (2, 1, 2)%Z 0%Z).
  - vm_compute. discriminate.
  - repeat (constructor; [|repeat constructor; unfold time_le; simpl; lia]).
    constructor.
  - reflexivity.
  - reflexivity.
Defined.

(** ** Peak extraction: [_peaks] *)

Lemma Qlt_bool_iff (x y : Q) : Qlt_bool x y = true <-> (x < y)%Q.
Proof.
  unfold Qlt_bool. rewrite negb_true_iff.
  split.
  - intros H. apply Qnot_le_lt. intros Hle. apply Qle_bool_iff in Hle. congruence.
  - intros H. destruct (Qle_bool y x) eqn:E; [|done].
    apply Qle_bool_iff in E. lra.
Qed.

Lemma Qle_bool_false_iff (x y : Q) : Qle_bool x y = false <-> (y < x)%Q.
Proof.
  rewrite <- Qlt_bool_iff. unfold Qlt_bool. by rewrite negb_true_iff.
Qed.

Lemma peaks_fold_filter data_2d offsets amp_min (cells : list (Z * Z)) (acc : list (Z * Z)) :
  fold_left (peaks_step data_2d offsets amp_min) cells acc =
    acc ++ map swap_pair (List.filter (is_peak data_2d offsets amp_min) cells).
Proof.
  revert acc. induction cells as [|[c r] cells IH]; intros acc; simpl.
  - by rewrite app_nil_r.
  - rewrite IH. unfold is_peak at 2. simpl.
    destruct (Qle_bool _ amp_min); simpl; [done|].
    destruct (neighbor_scan _ _ _ _); simpl; [|done].
    by rewrite <- app_assoc.
Qed.

Lemma peaks_filter data_2d ro co amp_min :
  _peaks data_2d ro co amp_min =
    map swap_pair (List.filter (is_peak data_2d (zip ro co) amp_min)
                               (ndindex (shape1 data_2d) (shape0 data_2d))).
Proof. unfold _peaks. by rewrite peaks_fold_filter. Qed.

Lemma in_ndindex (n0 n1 : nat) (a b : Z) :
  In (a, b) (ndindex n0 n1) <->
  (0 <= a < Z.of_nat n0)%Z /\ (0 <= b < Z.of_nat n1)%Z.
Proof.
  unfold ndindex. rewrite in_flat_map. split.
  - intros (i & Hi & Hab). apply in_map_iff in Hab as (j & Heq & Hj).
    apply in_seq in Hi. apply in_seq in Hj. injection Heq as <- <-. lia.
  - intros [Ha Hb]. exists (Z.to_nat a). split; [apply in_seq; lia|].
    apply in_map_iff. exists (Z.to_nat b). split; [f_equal; lia|apply in_seq; lia].
Qed.

Lemma neighbor_scan_true data_2d r c offsets :
  neighbor_scan data_2d r c offsets = true <->
  forall dr dc, In (dr, dc) offsets -> (dr, dc) <> (0, 0)%Z ->
    in_bounds data_2d (r + dr) (c + dc) ->
    ~ (getitem 0%Q data_2d r c < getitem 0%Q data_2d (r + dr) (c + dc))%Q.
Proof.
  induction offsets as [|[dr dc] rest IH]; simpl.
  - split; [intros _ ? ? []|done].
  - destruct ((dr =? 0)%Z && (dc =? 0)%Z)%bool eqn:Hz.
    { rewrite IH. apply andb_true_iff in Hz as [?%Z.eqb_eq ?%Z.eqb_eq]. subst.
      split; intros H dr dc.
      - intros [[= <- <-]|Hin]; [done|by apply H].
      - intros Hin. apply H. by right. }
    assert ((dr, dc) <> (0, 0)%Z) as Hnz.
    { intros [= -> ->]. by rewrite !Z.eqb_refl in Hz. }
    destruct ((0 <=? r + dr)%Z && (r + dr <? Z.of_nat (shape0 data_2d))%Z)%bool eqn:Hr; simpl.
    2:{ rewrite IH. split; intros H dr' dc'.
        - intros [[= <- <-]|Hin]; [|by apply H].
          intros _ [Hb _]. exfalso. apply andb_false_iff in Hr. lia.
        - intros Hin. apply H. by right. }
    destruct ((0 <=? c + dc)%Z && (c + dc <? Z.of_nat (shape1 data_2d))%Z)%bool eqn:Hc; simpl.
    2:{ rewrite IH. split; intros H dr' dc'.
        - intros [[= <- <-]|Hin]; [|by apply H].
          intros _ [_ Hb]. exfalso. apply andb_false_iff in Hc. lia.
        - intros Hin. apply H. by right. }
    destruct (Qlt_bool _ _) eqn:Hlt.
    + split; [done|]. intros H. exfalso.
      apply Qlt_bool_iff in Hlt. apply (H dr dc); [by left|done| |done].
      apply andb_true_iff in Hr, Hc. unfold in_bounds. lia.
    + rewrite IH. split; intros H dr' dc'.
      * intros [[= <- <-]|Hin]; [|by apply H].
        intros _ _ Hlt'. apply Qlt_bool_iff in Hlt'. congruence.
      * intros Hin. apply H. by right.
Qed.

Lemma in_peaks_iff data_2d ro co amp_min (r c : Z) :
  In (r, c) (_peaks data_2d ro co amp_min) <->
  in_bounds data_2d r c /\
  (amp_min < getitem 0%Q data_2d r c)%Q /\
  neighbor_scan data_2d r c (zip ro co) = true.
Proof.
  rewrite peaks_filter, in_map_iff. split.
  - intros ([c' r'] & [= <- <-] & Hin). simpl in *.
    apply filter_In in Hin as [Hin Hp].
    apply in_ndindex in Hin. unfold is_peak in Hp. simpl in Hp.
    apply andb_true_iff in Hp as [Hcut Hscan].
    apply negb_true_iff, Qle_bool_false_iff in Hcut.
    unfold in_bounds. tauto.
  - intros ([Hr Hc] & Hcut & Hscan). exists (c, r). split; [done|].
    apply filter_In. split; [by apply in_ndindex|].
    unfold is_peak. simpl. rewrite Hscan, andb_true_r.
    by apply negb_true_iff, Qle_bool_false_iff.
Qed.

Section sorted_lists.
Context {A B : Type} (R : A -> A -> Prop) (R' : B -> B -> Prop).

Lemma StronglySorted_append (l1 l2 : list A) :
  StronglySorted R l1 -> StronglySorted R l2 ->
  (forall x y, In x l1 -> In y l2 -> R x y) ->
  StronglySorted R (l1 ++ l2).
Proof.
  intros H1 H2 H12. induction H1 as [|a l1 H1 IH Ha]; simpl; [done|].
  constructor.
  - apply IH. intros x y Hx Hy. apply H12; [by right|done].
  - apply List.Forall_app. split; [done|].
    apply List.Forall_forall. intros y Hy. apply H12; [by left|done].
Qed.

Lemma StronglySorted_keep (f : A -> bool) (l : list A) :
  StronglySorted R l -> StronglySorted R (List.filter f l).
Proof.
  induction 1 as [|a l Hs IH Ha]; simpl; [constructor|].
  destruct (f a); [|done]. constructor; [done|].
  apply List.Forall_forall. intros y Hy. apply filter_In in Hy as [Hy _].
  by apply (proj1 (List.Forall_forall _ _) Ha).
Qed.

Lemma StronglySorted_image (f : A -> B) (l : list A) :
  (forall x y, R x y -> R' (f x) (f y)) ->
  StronglySorted R l -> StronglySorted R' (map f l).
Proof.
  intros Hf. induction 1 as [|a l Hs IH Ha]; simpl; constructor; [done|].
  apply List.Forall_forall. intros y Hy. apply in_map_iff in Hy as (x & <- & Hx).
  apply Hf. by apply (proj1 (List.Forall_forall _ _) Ha).
Qed.
End sorted_lists.

Lemma ndindex_row_sorted (i : Z) (start n1 : nat) :
  StronglySorted ndindex_lt (map (fun j => (i, Z.of_nat j)) (seq start n1)).
Proof.
  revert start. induction n1 as [|n1 IH]; intros start; simpl; constructor; [apply IH|].
  apply List.Forall_forall. intros y Hy. apply in_map_iff in Hy as (j & <- & Hj).
  apply in_seq in Hj. right. simpl. lia.
Qed.

Lemma ndindex_rows_sorted (start n0 n1 : nat) :
  StronglySorted ndindex_lt
    (flat_map (fun i => map (fun j => (Z.of_nat i, Z.of_nat j)) (seq 0 n1)) (seq start n0)).
Proof.
  revert start. induction n0 as [|n0 IH]; intros start; simpl; [constructor|].
  apply StronglySorted_append; [apply ndindex_row_sorted|apply IH|].
  intros x y Hx Hy. apply in_map_iff in Hx as (j & <- & Hj).
  apply in_flat_map in Hy as (i & Hi & Hy). apply in_map_iff in Hy as (j' & <- & Hj').
  apply in_seq in Hi. left. simpl. lia.
Qed.

Lemma ndindex_sorted (n0 n1 : nat) : StronglySorted ndindex_lt (ndindex n0 n1).
Proof. apply ndindex_rows_sorted. Qed.

Lemma peaks_column_major data_2d ro co amp_min :
  StronglySorted column_major_lt (_peaks data_2d ro co amp_min).
Proof.
  rewrite peaks_filter.
  apply (StronglySorted_image ndindex_lt column_major_lt).
  - intros [c r] [c' r']. unfold ndindex_lt, column_major_lt, swap_pair. simpl. tauto.
  - apply StronglySorted_keep, ndindex_sorted.
Qed.

(** The peak list, read as [(f, t)] pairs, is in the ascending time order
    the encoder relies on. *)
Lemma peaks_time_ascending data_2d ro co amp_min :
  StronglySorted time_le (_peaks data_2d ro co amp_min).
Proof.
  rewrite <- (map_id (_peaks data_2d ro co amp_min)).
  apply (StronglySorted_image column_major_lt time_le).
  - intros p q. unfold column_major_lt, time_le. lia.
  - apply peaks_column_major.
Qed.

Lemma peaks_all_above data_2d ro co amp_min :
  Forall (above_cutoff data_2d amp_min) (_peaks data_2d ro co amp_min).
Proof.
  apply List.Forall_forall. intros [r c] Hin. apply in_peaks_iff in Hin.
  unfold above_cutoff. simpl. tauto.
Qed.

(** [C4] Every peak returned by the peak extraction has an amplitude
    strictly greater than the cutoff: for [_peaks] with any offsets and any
    cutoff value, for [_local_peak_locations] with any neighborhood mask,
    and for [extract_local_peak_idxs] with the cutoff it computes. *)
Theorem peaks_above_cutoff (cfg : configs) (data_2d : ndarray Q) (nbrhd : ndarray bool)
    (nbrhd_row_offsets nbrhd_col_offsets : list Z) (amp_min : Q) :
  Forall (above_cutoff data_2d amp_min)
         (_peaks data_2d nbrhd_row_offsets nbrhd_col_offsets amp_min) /\
  match _local_peak_locations data_2d nbrhd amp_min with
  | Return peaks => Forall (above_cutoff data_2d amp_min) peaks
  | Raise _ => True
  end /\
  match _find_cutoff cfg data_2d, extract_local_peak_idxs cfg data_2d with
  | Return cutoff, Return peaks => Forall (above_cutoff data_2d cutoff) peaks
  | _, _ => True
  end.
Proof.
  assert (forall m, match _local_peak_locations data_2d nbrhd m with
                    | Return peaks => Forall (above_cutoff data_2d m) peaks
                    | Raise _ => True
                    end) as Hloc.
  { intros m. unfold _local_peak_locations.
    destruct (negb _); [done|]. destruct (negb _); [done|].
    destruct (np_where nbrhd). apply peaks_all_above. }
  split; [apply peaks_all_above|]. split; [apply Hloc|].
  unfold extract_local_peak_idxs.
  destruct (_find_cutoff cfg data_2d) as [cutoff|]; simpl; [|done].
  clear Hloc.
  unfold _local_peak_locations.
  destruct (negb _); [done|]. destruct (negb _); [done|].
  destruct (np_where _). apply peaks_all_above.
Qed.

(** [C5] A cell inside the matrix whose amplitude exceeds the cutoff
    is returned as a peak if and only if no in-bounds neighbor at a non-zero
    offset of the zipped offset lists has a strictly greater amplitude.  In
    particular neighbors of equal amplitude never disqualify it: a cell all
    of whose in-bounds neighbors are smaller or equal is returned, and two
    adjacent cells of equal height are both returned. *)
Theorem peak_accepted_iff (data_2d : ndarray Q) (nbrhd_row_offsets nbrhd_col_offsets : list Z)
    (amp_min : Q) (r c : Z) :
  in_bounds data_2d r c ->
  (amp_min < getitem 0%Q data_2d r c)%Q ->
  (In (r, c) (_peaks data_2d nbrhd_row_offsets nbrhd_col_offsets amp_min) <->
   forall dr dc,
     In (dr, dc) (zip nbrhd_row_offsets nbrhd_col_offsets) ->
     (dr, dc) <> (0, 0)%Z ->
     in_bounds data_2d (r + dr) (c + dc) ->
     ~ (getitem 0%Q data_2d r c < getitem 0%Q data_2d (r + dr) (c + dc))%Q) /\
  ((forall dr dc,
      In (dr, dc) (zip nbrhd_row_offsets nbrhd_col_offsets) ->
      in_bounds data_2d (r + dr) (c + dc) ->
      (getitem 0%Q data_2d (r + dr) (c + dc) <= getitem 0%Q data_2d r c)%Q) ->
   In (r, c) (_peaks data_2d nbrhd_row_offsets nbrhd_col_offsets amp_min)) /\
  _peaks tie_example [0; 0; 0]%Z [-1; 0; 1]%Z 0%Q = [(0, 0); (0, 1)]%Z.
Proof.
  intros Hb Hcut.
  assert (In (r, c) (_peaks data_2d nbrhd_row_offsets nbrhd_col_offsets amp_min) <->
          neighbor_scan data_2d r c (zip nbrhd_row_offsets nbrhd_col_offsets) = true) as Hiff.
  { rewrite in_peaks_iff. tauto. }
  split; [|split].
  - by rewrite Hiff, neighbor_scan_true.
  - intros Hle. apply Hiff, neighbor_scan_true. intros dr dc Hin _ Hnb Hlt.
    specialize (Hle dr dc Hin Hnb). lra.
  - reflexivity.
Qed.

Lemma peak_accepted_iff_witness :
  in_bounds tie_example 0 1 /\
  In (0, 1)%Z (_peaks tie_example [0; 0; 0]%Z [-1; 0; 1]%Z 0%Q).
Proof.
  assert (in_bounds tie_example 0 1) as Hb by (unfold in_bounds; simpl; lia).
  split; [exact Hb|].
  apply (peak_accepted_iff tie_example [0; 0; 0]%Z [-1; 0; 1]%Z 0%Q 0 1 Hb).
  - reflexivity.
  - intros dr dc Hin _. simpl in Hin.
    destruct Hin as [[= <- <-]|[[= <- <-]|[[= <- <-]|[]]]]; vm_compute; discriminate.
Defined.

(** [C6] The list returned by the peak extraction is in column-major
    order: strictly ascending in the column (time-frame) index, and for
    equal columns strictly ascending in the row (frequency-bin) index.  The
    extraction is a function of the matrix, the offsets and the cutoff, so
    two runs on the same inputs return the same list. *)
Theorem peaks_column_major_order (data_2d : ndarray Q) (nbrhd : ndarray bool)
    (nbrhd_row_offsets nbrhd_col_offsets : list Z) (amp_min : Q) :
  StronglySorted column_major_lt
    (_peaks data_2d nbrhd_row_offsets nbrhd_col_offsets amp_min) /\
  match _local_peak_locations data_2d nbrhd amp_min with
  | Return peaks => StronglySorted column_major_lt peaks
  | Raise _ => True
  end.
Proof.
  split; [apply peaks_column_major|].
  unfold _local_peak_locations.
  destruct (negb _); [done|]. destruct (negb _); [done|].
  destruct (np_where nbrhd). apply peaks_column_major.
Qed.

(** ** The amplitude cutoff: [_find_cutoff] *)

Lemma Qeq_bool_true (x y : Q) : Qeq_bool x y = true <-> (x == y)%Q.
Proof. apply Qeq_bool_iff. Qed.

Lemma filter_length_ext {A} (f g : A -> bool) (l : list A) :
  (forall x, In x l -> f x = g x) ->
  length (List.filter f l) = length (List.filter g l).
Proof.
  induction l as [|a l IH]; intros H; simpl; [done|].
  rewrite (H a) by (by left).
  destruct (g a); simpl; rewrite IH; try done; intros; apply H; by right.
Qed.

Lemma filter_length_filter {A} (f g : A -> bool) (l : list A) :
  length (List.filter f (List.filter g l)) =
  length (List.filter (fun x => g x && f x) l).
Proof.
  induction l as [|a l IH]; simpl; [done|].
  destruct (g a); simpl; [|done]. destruct (f a); simpl; by rewrite IH.
Qed.

Lemma filter_length_le {A} (f : A -> bool) (l : list A) :
  (length (List.filter f l) <= length l)%nat.
Proof.
  induction l as [|a l IH]; simpl; [done|]. destruct (f a); simpl; lia.
Qed.

Lemma filter_length_perm {A} (f : A -> bool) (l1 l2 : list A) :
  Permutation l1 l2 -> length (List.filter f l1) = length (List.filter f l2).
Proof.
  induction 1; simpl; try done.
  - destruct (f x); simpl; congruence.
  - destruct (f x), (f y); simpl; congruence.
  - congruence.
Qed.

Lemma three_way_perm (pivot : Q) (l : list Q) :
  Permutation
    (List.filter (fun x => Qlt_bool x pivot) l ++
     List.filter (fun x => Qeq_bool x pivot) l ++
     List.filter (fun x => Qlt_bool pivot x) l) l.
Proof.
  induction l as [|a l IH]; simpl; [done|].
  destruct (Qlt_bool a pivot) eqn:E1.
  { apply Qlt_bool_iff in E1.
    replace (Qeq_bool a pivot) with false.
    2:{ symmetry. apply not_true_is_false. rewrite Qeq_bool_true. lra. }
    replace (Qlt_bool pivot a) with false.
    2:{ symmetry. apply not_true_is_false. rewrite Qlt_bool_iff. lra. }
    simpl. by constructor. }
  destruct (Qeq_bool a pivot) eqn:E2.
  { apply Qeq_bool_true in E2.
    replace (Qlt_bool pivot a) with false.
    2:{ symmetry. apply not_true_is_false. rewrite Qlt_bool_iff. lra. }
    simpl. symmetry. apply Permutation_cons_app. by symmetry. }
  replace (Qlt_bool pivot a) with true.
  2:{ symmetry. apply Qlt_bool_iff.
      apply not_true_iff_false in E1, E2.
      rewrite Qlt_bool_iff in E1. rewrite Qeq_bool_true in E2.
      destruct (Q_dec a pivot) as [[?|?]|?]; [lra|done|done]. }
  symmetry. rewrite app_assoc. apply Permutation_cons_app.
  rewrite <- app_assoc. by symmetry.
Qed.

Lemma select_partition_perm (fuel : nat) (l : list Q) (k : nat) :
  Permutation (select_partition fuel l k) l.
Proof.
  revert l k. induction fuel as [|fuel IH]; intros l k; simpl; [done|].
  destruct l as [|pivot l']; [done|].
  set (l := pivot :: l').
  destruct (k <? _)%nat.
  - etransitivity; [|apply (three_way_perm pivot l)].
    apply Permutation_app_tail, IH.
  - destruct (k <? _)%nat; [apply three_way_perm|].
    etransitivity; [|apply (three_way_perm pivot l)].
    rewrite !app_assoc. apply Permutation_app_head, IH.
Qed.

Lemma select_partition_length (fuel : nat) (l : list Q) (k : nat) :
  length (select_partition fuel l k) = length l.
Proof. apply Permutation_length, select_partition_perm. Qed.

Lemma count_split (pivot v : Q) (l : list Q) (f : Q -> bool) :
  length (List.filter f l) =
  (length (List.filter (fun x => Qle_bool x pivot && f x) l) +
   length (List.filter (fun x => Qlt_bool pivot x && f x) l))%nat.
Proof.
  induction l as [|a l IH]; simpl; [done|].
  unfold Qlt_bool at 1. destruct (Qle_bool a pivot); simpl; destruct (f a); simpl; lia.
Qed.

Lemma count_le_split (pivot : Q) (l : list Q) :
  count_le pivot l = (count_lt pivot l +
                      length (List.filter (fun x => Qeq_bool x pivot) l))%nat.
Proof.
  unfold count_le, count_lt. induction l as [|a l IH]; simpl; [done|].
  destruct (Qle_bool a pivot) eqn:E1; destruct (Qlt_bool a pivot) eqn:E2;
    destruct (Qeq_bool a pivot) eqn:E3; simpl; try lia; exfalso.
  - apply Qlt_bool_iff in E2. apply Qeq_bool_true in E3. lra.
  - apply Qle_bool_iff in E1. apply not_true_iff_false in E2, E3.
    rewrite Qlt_bool_iff in E2. rewrite Qeq_bool_true in E3.
    destruct (Q_dec a pivot) as [[?|?]|?]; [done|lra|done].
  - apply Qlt_bool_iff in E2. apply Qeq_bool_true in E3. lra.
  - apply Qlt_bool_iff in E2. apply not_true_iff_false in E1.
    rewrite Qle_bool_iff in E1. lra.
  - apply Qeq_bool_true in E3. apply not_true_iff_false in E1.
    rewrite Qle_bool_iff in E1. lra.
Qed.

Lemma select_partition_rank (fuel : nat) (l : list Q) (k : nat) :
  (length l <= fuel)%nat -> (k < length l)%nat ->
  exists v, nth_error (select_partition fuel l k) k = Some v /\ has_rank l k v.
Proof.
  revert l k. induction fuel as [|fuel IH]; intros l k Hfuel Hk; [lia|].
  simpl. destruct l as [|pivot l']; [simpl in Hk; lia|].
  set (l := pivot :: l') in *.
  set (lo := List.filter (fun x => Qlt_bool x pivot) l).
  set (eq := List.filter (fun x => Qeq_bool x pivot) l).
  set (hi := List.filter (fun x => Qlt_bool pivot x) l).
  assert (Hperm : Permutation (lo ++ eq ++ hi) l) by apply three_way_perm.
  assert (Hlen : (length lo + length eq + length hi = length l)%nat).
  { apply Permutation_length in Hperm. rewrite !length_app in Hperm. lia. }
  assert (Heq1 : (1 <= length eq)%nat).
  { unfold eq, l. simpl. replace (Qeq_bool pivot pivot) with true; [simpl; lia|].
    symmetry. apply Qeq_bool_true. reflexivity. }
  assert (Hllo : count_lt pivot l = length lo) by done.
  assert (Hlle : count_le pivot l = (length lo + length eq)%nat).
  { rewrite count_le_split. done. }
  destruct (k <? length lo)%nat eqn:Hcase1.
  - apply Nat.ltb_lt in Hcase1.
    destruct (IH lo k) as (v & Hnth & Hin & Hrank); [lia|done|].
    exists v. split.
    { rewrite nth_error_app1; [done|]. by rewrite select_partition_length. }
    assert (v < pivot)%Q as Hv.
    { apply filter_In in Hin as [_ Hin]. by apply Qlt_bool_iff in Hin. }
    split; [by apply filter_In in Hin as [Hin _]|].
    assert (count_lt v lo = count_lt v l) as <-.
    { unfold count_lt, lo. rewrite filter_length_filter. apply filter_length_ext.
      intros x _. destruct (Qlt_bool x v) eqn:E; [|by rewrite andb_false_r].
      rewrite andb_true_r. apply Qlt_bool_iff. apply Qlt_bool_iff in E. lra. }
    assert (count_le v lo = count_le v l) as <-.
    { unfold count_le, lo. rewrite filter_length_filter. apply filter_length_ext.
      intros x _. destruct (Qle_bool x v) eqn:E; [|by rewrite andb_false_r].
      rewrite andb_true_r. apply Qlt_bool_iff. apply Qle_bool_iff in E. lra. }
    done.
  - apply Nat.ltb_ge in Hcase1.
    destruct (k <? length lo + length eq)%nat eqn:Hcase2.
    + apply Nat.ltb_lt in Hcase2.
      destruct (nth_error eq (k - length lo)) as [v|] eqn:Hnth.
      2:{ apply nth_error_None in Hnth. lia. }
      exists v. split.
      { rewrite nth_error_app2 by lia. rewrite nth_error_app1 by lia. done. }
      apply nth_error_In in Hnth. apply filter_In in Hnth as [Hin Hv].
      apply Qeq_bool_true in Hv.
      split; [done|].
      assert (count_lt v l = count_lt pivot l) as ->.
      { apply filter_length_ext. intros x _. unfold Qlt_bool. by rewrite Hv. }
      assert (count_le v l = count_le pivot l) as ->.
      { apply filter_length_ext. intros x _. by rewrite Hv. }
      lia.
    + apply Nat.ltb_ge in Hcase2.
      destruct (IH hi (k - length lo - length eq)%nat) as (v & Hnth & Hin & Hrank);
        [lia|lia|].
      exists v. split.
      { rewrite nth_error_app2 by lia. rewrite nth_error_app2 by lia. done. }
      assert (pivot < v)%Q as Hv.
      { apply filter_In in Hin as [_ Hin]. by apply Qlt_bool_iff in Hin. }
      split; [by apply filter_In in Hin as [Hin _]|].
      assert (count_lt v l = (length lo + length eq + count_lt v hi)%nat) as ->.
      { unfold count_lt at 1. rewrite (count_split pivot v l).
        unfold count_lt, hi. rewrite filter_length_filter. f_equal.
        rewrite <- Hlle. apply filter_length_ext.
        intros x _. destruct (Qle_bool x pivot) eqn:E; [|done].
        simpl. apply Qlt_bool_iff. apply Qle_bool_iff in E. lra. }
      assert (count_le v l = (length lo + length eq + count_le v hi)%nat) as ->.
      { unfold count_le at 1. rewrite (count_split pivot v l).
        unfold count_le, hi. rewrite filter_length_filter. f_equal.
        rewrite <- Hlle. apply filter_length_ext.
        intros x _. destruct (Qle_bool x pivot) eqn:E; [|done].
        simpl. apply Qle_bool_iff. apply Qle_bool_iff in E. lra. }
      lia.
Qed.

(** The layout NumPy documents for [np.partition]: the element at [k] has
    no greater element before it and no smaller element after it. *)
Lemma select_partition_layout (fuel : nat) (l : list Q) (k : nat) :
  (length l <= fuel)%nat -> (k < length l)%nat ->
  exists v, nth_error (select_partition fuel l k) k = Some v /\
    Forall (fun x => (x <= v)%Q) (firstn k (select_partition fuel l k)) /\
    Forall (fun x => (v <= x)%Q) (skipn (S k) (select_partition fuel l k)).
Proof.
  revert l k. induction fuel as [|fuel IH]; intros l k Hfuel Hk; [lia|].
  simpl. destruct l as [|pivot l']; [simpl in Hk; lia|].
  set (l := pivot :: l') in *.
  set (lo := List.filter (fun x => Qlt_bool x pivot) l).
  set (eq := List.filter (fun x => Qeq_bool x pivot) l).
  set (hi := List.filter (fun x => Qlt_bool pivot x) l).
  assert (Hlen : (length lo + length eq + length hi = length l)%nat).
  { assert (Hperm : Permutation (lo ++ eq ++ hi) l) by apply three_way_perm.
    apply Permutation_length in Hperm. rewrite !length_app in Hperm. lia. }
  assert (Heq1 : (1 <= length eq)%nat).
  { unfold eq, l. simpl. replace (Qeq_bool pivot pivot) with true; [simpl; lia|].
    symmetry. apply Qeq_bool_true. reflexivity. }
  assert (Hlo : Forall (fun x => (x < pivot)%Q) lo).
  { apply List.Forall_forall. intros x Hx. apply filter_In in Hx as [_ Hx].
    by apply Qlt_bool_iff. }
  assert (Heq : Forall (fun x => (x == pivot)%Q) eq).
  { apply List.Forall_forall. intros x Hx. apply filter_In in Hx as [_ Hx].
    by apply Qeq_bool_true. }
  assert (Hhi : Forall (fun x => (pivot < x)%Q) hi).
  { apply List.Forall_forall. intros x Hx. apply filter_In in Hx as [_ Hx].
    by apply Qlt_bool_iff. }
  destruct (k <? length lo)%nat eqn:Hcase1.
  - apply Nat.ltb_lt in Hcase1.
    destruct (IH lo k) as (v & Hnth & Hbefore & Hafter); [lia|done|].
    pose proof (select_partition_length fuel lo k) as Hsel.
    assert (v < pivot)%Q as Hv.
    { apply nth_error_In in Hnth.
      apply (Permutation_in _ (select_partition_perm fuel lo k)) in Hnth.
      by apply (proj1 (List.Forall_forall _ _) Hlo). }
    exists v. split; [|split].
    + rewrite nth_error_app1; [done|lia].
    + rewrite take_app_le by lia. done.
    + rewrite drop_app_le by lia. apply List.Forall_app. split; [done|].
      apply List.Forall_app. split.
      * eapply List.Forall_impl; [|exact Heq]. intros x Hx. simpl in Hx. lra.
      * eapply List.Forall_impl; [|exact Hhi]. intros x Hx. simpl in Hx. lra.
  - apply Nat.ltb_ge in Hcase1.
    destruct (k <? length lo + length eq)%nat eqn:Hcase2.
    + apply Nat.ltb_lt in Hcase2.
      destruct (nth_error eq (k - length lo)) as [v|] eqn:Hnth.
      2:{ apply nth_error_None in Hnth. lia. }
      assert (v == pivot)%Q as Hv.
      { apply nth_error_In in Hnth. by apply (proj1 (List.Forall_forall _ _) Heq). }
      exists v. split; [|split].
      * rewrite nth_error_app2 by lia. rewrite nth_error_app1 by lia. done.
      * rewrite take_app_ge by lia. apply List.Forall_app. split.
        { eapply List.Forall_impl; [|exact Hlo]. intros x Hx. simpl in Hx. lra. }
        rewrite take_app_le by lia.
        apply List.Forall_forall. intros x Hx%list_elem_of_In.
        apply (subseteq_take _ eq), list_elem_of_In in Hx.
        apply (proj1 (List.Forall_forall _ _) Heq) in Hx. lra.
      * rewrite drop_app_ge by lia. rewrite drop_app_le by lia.
        apply List.Forall_app. split.
        { apply List.Forall_forall.
          intros x Hx%list_elem_of_In.
          apply (subseteq_drop _ eq), list_elem_of_In in Hx.
          apply (proj1 (List.Forall_forall _ _) Heq) in Hx. lra. }
        eapply List.Forall_impl; [|exact Hhi]. intros x Hx. simpl in Hx. lra.
    + apply Nat.ltb_ge in Hcase2.
      destruct (IH hi (k - length lo - length eq)%nat) as (v & Hnth & Hbefore & Hafter);
        [lia|lia|].
      pose proof (select_partition_length fuel hi (k - length lo - length eq)) as Hsel.
      assert (pivot < v)%Q as Hv.
      { apply nth_error_In in Hnth.
        apply (Permutation_in _ (select_partition_perm fuel hi _)) in Hnth.
        by apply (proj1 (List.Forall_forall _ _) Hhi). }
      exists v. split; [|split].
      * rewrite nth_error_app2 by lia. rewrite nth_error_app2 by lia. done.
      * rewrite take_app_ge by lia. apply List.Forall_app. split.
        { eapply List.Forall_impl; [|exact Hlo]. intros x Hx. simpl in Hx. lra. }
        rewrite take_app_ge by lia. apply List.Forall_app. split.
        { eapply List.Forall_impl; [|exact Heq]. intros x Hx. simpl in Hx. lra. }
        done.
      * rewrite drop_app_ge by lia. rewrite drop_app_ge by lia.
        replace (S k - length lo - length eq)%nat
          with (S (k - length lo - length eq)) by lia.
        done.
Qed.

Lemma filter_length_all {A} (f : A -> bool) (l : list A) :
  (forall x, In x l -> f x = true) -> length (List.filter f l) = length l.
Proof.
  induction l as [|a l IH]; intros H; simpl; [done|].
  rewrite (H a) by (by left). simpl. rewrite IH; [done|]. intros; apply H; by right.
Qed.

Lemma filter_length_none {A} (f : A -> bool) (l : list A) :
  (forall x, In x l -> f x = false) -> length (List.filter f l) = 0%nat.
Proof.
  induction l as [|a l IH]; intros H; simpl; [done|].
  rewrite (H a) by (by left). apply IH. intros; apply H; by right.
Qed.

Lemma sorted_split (s : list Q) (k : nat) (w : Q) :
  StronglySorted Qle s -> nth_error s k = Some w ->
  s = firstn k s ++ w :: skipn (S k) s /\
  length (firstn k s) = k /\
  (forall x, In x (firstn k s) -> (x <= w)%Q) /\
  (forall x, In x (skipn (S k) s) -> (w <= x)%Q).
Proof.
  intros Hs. revert k. induction Hs as [|a s Hs IH Ha]; intros k Hk.
  - by destruct k.
  - destruct k as [|k]; simpl in *.
    + injection Hk as ->. repeat split; [done|].
      intros x Hx. by apply (proj1 (List.Forall_forall _ _) Ha).
    + destruct (IH k Hk) as (Heq & Hlen & Hlo & Hhi).
      repeat split.
      * by rewrite <- Heq.
      * by rewrite Hlen.
      * intros x [<-|Hx]; [|by apply Hlo].
        apply (proj1 (List.Forall_forall _ _) Ha). by eapply nth_error_In.
      * destruct s; [by destruct k|]. done.
Qed.

Lemma rank_in_sorted (l s : list Q) (k : nat) (v : Q) :
  has_rank l k v -> Permutation s l -> StronglySorted Qle s ->
  exists w, nth_error s k = Some w /\ (w == v)%Q.
Proof.
  intros (Hin & Hlt & Hle) Hperm Hs.
  unfold count_lt in Hlt. unfold count_le in Hle.
  rewrite <- (filter_length_perm _ _ _ Hperm) in Hlt.
  rewrite <- (filter_length_perm _ _ _ Hperm) in Hle.
  destruct (nth_error s k) as [w|] eqn:Hw.
  2:{ apply nth_error_None in Hw.
      pose proof (filter_length_le (fun x => Qle_bool x v) s). lia. }
  exists w. split; [done|].
  destruct (sorted_split s k w Hs Hw) as (Heq & Hlen & Hlo & Hhi).
  destruct (Q_dec w v) as [[Hwv|Hvw]|Heqv]; [exfalso|exfalso|done].
  - rewrite Heq, List.filter_app, length_app in Hlt. simpl in Hlt.
    replace (Qlt_bool w v) with true in Hlt by (symmetry; by apply Qlt_bool_iff).
    rewrite filter_length_all in Hlt; [simpl in Hlt; lia|].
    intros x Hx. apply Qlt_bool_iff. specialize (Hlo x Hx). lra.
  - rewrite Heq, List.filter_app, length_app in Hle. simpl in Hle.
    replace (Qle_bool w v) with false in Hle.
    2:{ symmetry. apply Qle_bool_false_iff. done. }
    rewrite (filter_length_none _ (skipn (S k) s)) in Hle.
    2:{ intros x Hx. apply Qle_bool_false_iff. specialize (Hhi x Hx). lra. }
    pose proof (filter_length_le (fun x => Qle_bool x v) (firstn k s)). lia.
Qed.

Lemma py_round_nonneg (x : Q) : (0 <= x)%Q -> (0 <= py_round x)%Z.
Proof.
  intros Hx. unfold py_round.
  assert (0 <= Qfloor x)%Z as Hf.
  { change 0%Z with (Qfloor 0). by apply Qfloor_resp_le. }
  destruct (Qcompare _ _); [destruct (Z.even _)| |]; lia.
Qed.

Lemma float_value_finite_nonneg (m : positive) (e : Z) :
  (0 <= float_value (S754_finite false m e))%Q.
Proof.
  simpl. apply Qmult_le_0_compat.
  - change 0%Q with (inject_Z 0). rewrite <- Zle_Qle. lia.
  - apply Qlt_le_weak, Qpower_0_lt. reflexivity.
Qed.

(** Rounding to binary64 keeps the sign it is given. *)
Lemma binary_round_aux_sign (mx ex : Z) (lx : location) :
  match binary_round_aux 53 1024 false mx ex lx with
  | S754_finite s _ _ => s = false
  | _ => True
  end.
Proof.
  unfold binary_round_aux.
  destruct (shr_fexp 53 1024 mx ex lx) as [mrs' e'].
  destruct (shr_fexp 53 1024 _ e' loc_Exact) as [mrs'' e''].
  destruct (shr_m mrs''); [done| |done].
  by destruct (e'' <=? _)%Z.
Qed.

Lemma float_of_int_sign (z : Z) (f : spec_float) :
  (0 <= z)%Z -> float_of_int z = Return f ->
  match f with
  | S754_finite s _ _ => s = false
  | S754_infinity _ => False
  | _ => True
  end.
Proof.
  intros Hz. unfold float_of_int, binary_normalize.
  destruct z as [|m|m]; [by intros [= <-]| |lia].
  unfold binary_round. destruct (shl_align _ _ _) as [mz ez].
  pose proof (binary_round_aux_sign (Z.pos mz) ez loc_Exact) as Hs.
  destruct (binary_round_aux _ _ _ _ _ _); intros [= <-]; done.
Qed.

Lemma float_mul_nonneg (x y : spec_float) :
  match x with S754_finite s _ _ => s = false | _ => True end ->
  SFleb (S754_zero false) y = true ->
  (0 <= float_value (float_mul x y))%Q.
Proof.
  intros Hx Hy. unfold float_mul.
  destruct x as [sx|sx| |sx mx ex], y as [sy|sy| |sy my ey]; simpl; try done.
  destruct sy; [done|]. subst sx. simpl.
  pose proof (binary_round_aux_sign (Z.pos (mx * my)) (ex + ey) loc_Exact) as Hs.
  destruct (binary_round_aux _ _ _ _ _ _) as [| | |s m e]; try done.
  subst s. apply float_value_finite_nonneg.
Qed.

(** A percentile that is not negative gives a selection index that is not
    negative. *)
Lemma cutoff_index_nonneg (cfg : configs) (n : nat) (idx : Z) :
  SFleb (S754_zero false) (amp_threshold_pct cfg) = true ->
  cutoff_index cfg n = Return idx -> (0 <= idx)%Z.
Proof.
  intros Hp. unfold cutoff_index.
  destruct (float_of_int (Z.of_nat n)) as [len|e] eqn:Hlen; [|done].
  apply float_of_int_sign in Hlen; [|lia].
  cbn [mbind outcome_bind].
  assert (0 <= float_value (float_mul len (amp_threshold_pct cfg)))%Q as Hm.
  { apply float_mul_nonneg; [by destruct len|done]. }
  unfold py_round_float.
  destruct (float_mul len (amp_threshold_pct cfg)); intros [= <-];
    by apply py_round_nonneg.
Qed.

(** On an array that is not empty, a selection index within bounds selects
    the element of that rank. *)
Lemma find_cutoff_returns (cfg : configs) (spectrogram : ndarray Q) (idx : Z) :
  cutoff_index cfg (length (ravel spectrogram)) = Return idx ->
  (0 <= idx < Z.of_nat (length (ravel spectrogram)))%Z ->
  exists v, _find_cutoff cfg spectrogram = Return v /\
    has_rank (ravel spectrogram) (Z.to_nat idx) v.
Proof.
  intros Hci Hidx. unfold _find_cutoff. rewrite Hci.
  set (data := ravel spectrogram) in *.
  cbn [mbind outcome_bind]. unfold np_partition.
  replace (Nat.eqb (length data) 0) with false by (symmetry; apply Nat.eqb_neq; lia).
  replace (idx <? 0)%Z with false by lia.
  replace ((0 <=? idx)%Z && (idx <? Z.of_nat (length data))%Z)%bool with true by lia.
  cbn [mbind outcome_bind].
  destruct (select_partition_rank (length data) data (Z.to_nat idx)) as (v & Hnth & Hrank);
    [done|lia|].
  exists v. unfold py_getitem. replace (0 <=? idx)%Z with true by lia.
  by rewrite Hnth.
Qed.

(** [C9], amended.  Let the percentile be a float that is not negative and
    let [idx] be the selection index the code computes for a spectrogram
    with n cells, [round] of the binary64 product of n and the percentile.
    When [idx] is below n, [_find_cutoff] returns a value, and that value is
    the element of rank [idx] of the flattened matrix: it has that rank by
    counting, and it equals the entry at index [idx] of every ascending
    rearrangement of the flattened values. *)
Theorem find_cutoff_rank (cfg : configs) (spectrogram : ndarray Q) (idx : Z) :
  SFleb (S754_zero false) (amp_threshold_pct cfg) = true ->
  cutoff_index cfg (length (ravel spectrogram)) = Return idx ->
  (idx < Z.of_nat (length (ravel spectrogram)))%Z ->
  exists v : Q,
    _find_cutoff cfg spectrogram = Return v /\
    has_rank (ravel spectrogram) (Z.to_nat idx) v /\
    forall sorted : list Q,
      Permutation sorted (ravel spectrogram) -> StronglySorted Qle sorted ->
      exists w, py_getitem sorted idx = Some w /\ (w == v)%Q.
Proof.
  intros Hp Hci Hidx.
  pose proof (cutoff_index_nonneg cfg _ idx Hp Hci) as Hidx0.
  destruct (find_cutoff_returns cfg spectrogram idx Hci) as (v & Hv & Hrank); [lia|].
  exists v. split; [done|]. split; [done|].
  intros sorted Hperm Hsorted. unfold py_getitem.
  replace (0 <=? idx)%Z with true by lia.
  by apply (rank_in_sorted (ravel spectrogram)).
Qed.

Lemma find_cutoff_rank_witness :
  exists v : Q,
    _find_cutoff small_cfg four_cells = Return v /\
    has_rank (ravel four_cells) (Z.to_nat 3) v /\
    forall sorted : list Q,
      Permutation sorted (ravel four_cells) -> StronglySorted Qle sorted ->
      exists w, py_getitem sorted 3 = Some w /\ (w == v)%Q.
Proof.
  apply (find_cutoff_rank small_cfg four_cells 3).
  - vm_compute. reflexivity.
  - vm_compute. reflexivity.
  - vm_compute. reflexivity.
Defined.

(** [C9], counterexample.  With one cell and the percentile [0.75], which is
    at least 0 and below 1, the selection index is [round (0.75) = 1], which
    is out of bounds: [np.partition] raises. *)
Lemma find_cutoff_index_out_of_bounds :
  length (ravel one_cell) = 1%nat /\
  (float_value (amp_threshold_pct small_cfg) == 3 # 4)%Q /\
  SFleb (S754_zero false) (amp_threshold_pct small_cfg) = true /\
  SFltb (amp_threshold_pct small_cfg) (float_literal 1 1) = true /\
  cutoff_index small_cfg (length (ravel one_cell)) = Return 1%Z /\
  _find_cutoff small_cfg one_cell = Raise ValueError.
Proof. repeat split; vm_compute; congruence. Qed.

(** The product is the binary64 product.  With the percentile [0.95] and
    ten cells it is the tie [9.5], which rounds to 10: the index is out of
    bounds although the exact product is below [9.5]. *)
Example cutoff_index_tie :
  cutoff_index tie_cfg 10 = Return 10%Z /\
  (inject_Z 10 * float_value (amp_threshold_pct tie_cfg) < 19 # 2)%Q /\
  _find_cutoff tie_cfg (mk_ndarray 2 5 (map inject_Z [0; 1; 2; 3; 4; 5; 6; 7; 8; 9]%Z))
    = Raise ValueError.
Proof. repeat split; vm_compute; reflexivity. Qed.

(** With the percentile [0.77] and 102450 cells, a spectrogram of 2049 rows
    and 50 columns, the binary64 product is the tie [78886.5], which rounds
    to the even 78886. *)
Example cutoff_index_pipeline :
  cutoff_index example_cfg (2049 * 50) = Return 78886%Z.
Proof. vm_compute. reflexivity. Qed.

(** An empty spectrogram: [np.partition] returns the empty array, and the
    indexing raises. *)
Example find_cutoff_empty :
  cutoff_index small_cfg (length (ravel no_cell)) = Return 0%Z /\
  _find_cutoff small_cfg no_cell = Raise IndexError.
Proof. split; vm_compute; reflexivity. Qed.

(** ** Store and query: [store_fingerprint], [query_database] *)

Section py_max_facts.
Context {A : Type} (key : A -> Z).

Lemma py_max_from_first_max (seen l : list A) (x : A) :
  first_max key x seen -> first_max key (py_max_from key x l) (seen ++ l).
Proof.
  revert seen x. induction l as [|y l IH]; intros seen x Hx; simpl.
  - by rewrite app_nil_r.
  - replace (seen ++ y :: l) with ((seen ++ [y]) ++ l) by (by rewrite <- app_assoc).
    apply IH. destruct Hx as (l1 & l2 & -> & H1 & H2).
    destruct (key x <? key y)%Z eqn:E.
    + apply Z.ltb_lt in E. exists (l1 ++ x :: l2), []. split; [done|]. split; [|by intros ? []].
      intros z Hz. apply in_app_or in Hz as [Hz|[<-|Hz]]; [|done|].
      * specialize (H1 z Hz). lia.
      * specialize (H2 z Hz). lia.
    + apply Z.ltb_ge in E. exists l1, (l2 ++ [y]).
      split; [by rewrite <- !app_assoc|]. split; [done|].
      intros z Hz. apply in_app_or in Hz as [Hz|[<-|[]]]; [by apply H2|done].
Qed.

Lemma py_max_first_max (l : list A) (w : A) :
  py_max key l = Return w -> first_max key w l.
Proof.
  destruct l as [|x l]; simpl; [done|]. intros [= <-].
  apply (py_max_from_first_max [x] l x).
  exists [], []. split; [done|]. split; by intros ? [].
Qed.

Lemma py_max_nonempty (l : list A) :
  l <> [] -> exists w, py_max key l = Return w.
Proof. destruct l; [done|]. intros _. by eexists. Qed.

Lemma py_max_from_map (x : A) (l : list A) :
  py_max_from (fun v => v) (key x) (map key l) = key (py_max_from key x l).
Proof.
  revert x. induction l as [|y l IH]; intros x; simpl; [done|].
  destruct (key x <? key y)%Z; apply IH.
Qed.

Lemma py_max_map (l : list A) (w : A) :
  py_max key l = Return w -> py_max (fun v => v) (map key l) = Return (key w).
Proof.
  destruct l as [|x l]; simpl; [done|]. intros [= <-]. by rewrite py_max_from_map.
Qed.

Lemma first_max_in (w : A) (l : list A) : first_max key w l -> In w l.
Proof. intros (l1 & l2 & -> & _). apply in_or_app. right. by left. Qed.

Lemma first_max_ge (w : A) (l : list A) (y : A) :
  first_max key w l -> In y l -> (key y <= key w)%Z.
Proof.
  intros (l1 & l2 & -> & H1 & H2) Hy.
  apply in_app_or in Hy as [Hy|[<-|Hy]]; [|lia|by apply H2].
  specialize (H1 y Hy). lia.
Qed.
End py_max_facts.

(** *** The store under lookups *)

Lemma db_getitem_entries database key :
  fst (db_getitem key database) = lookup_entries database key.
Proof. unfold db_getitem, lookup_entries. by destruct (database !! key). Qed.

Lemma db_touch_lookup database key k :
  db_touch database key !! k =
    match database !! k with
    | Some entries => Some entries
    | None => if decide (k = key) then Some [] else None
    end.
Proof.
  unfold db_touch, db_getitem.
  destruct (database !! key) as [entries|] eqn:Hkey; simpl.
  - destruct (database !! k) eqn:Hk; [done|]. case_decide; [congruence|done].
  - destruct (decide (k = key)) as [->|Hne].
    + by rewrite lookup_insert_eq, Hkey.
    + rewrite lookup_insert_ne by done. by destruct (database !! k).
Qed.

Lemma db_touch_entries database key k :
  lookup_entries (db_touch database key) k = lookup_entries database k.
Proof.
  unfold lookup_entries. rewrite db_touch_lookup.
  destruct (database !! k); [done|]. by case_decide.
Qed.

Lemma db_touch_all_lookup (keys : list (Z * Z * Z)) database k :
  fold_left db_touch keys database !! k =
    match database !! k with
    | Some entries => Some entries
    | None => if decide (k ∈ keys) then Some [] else None
    end.
Proof.
  revert database. induction keys as [|key keys IH]; intros database; simpl.
  - by destruct (database !! k).
  - rewrite IH, db_touch_lookup. destruct (database !! k); [done|].
    destruct (decide (k = key)) as [->|Hne].
    + rewrite decide_True; [done|]. by left.
    + destruct (decide (k ∈ keys)) as [Hin|Hnin].
      * rewrite decide_True; [done|]. by right.
      * rewrite decide_False; [done|]. rewrite elem_of_cons. tauto.
Qed.

Lemma db_touch_all_entries (keys : list (Z * Z * Z)) database k :
  lookup_entries (fold_left db_touch keys database) k = lookup_entries database k.
Proof.
  unfold lookup_entries. rewrite db_touch_all_lookup.
  destruct (database !! k); [done|]. by case_decide.
Qed.

Lemma entry_hits_ext database database' entry :
  (forall k, lookup_entries database' k = lookup_entries database k) ->
  entry_hits database' entry = entry_hits database entry.
Proof. intros H. unfold entry_hits. by rewrite H. Qed.

Lemma tally_entries_hits tc entries tallies :
  tally_entries tc entries tallies =
    fold_left (fun t h => tallies_incr h t)
              (map (fun st => (fst st, (snd st - tc)%Z)) entries) tallies.
Proof.
  unfold tally_entries. revert tallies.
  induction entries as [|[songID ts] entries IH]; intros tallies; simpl; [done|].
  apply IH.
Qed.

Lemma query_group_spec (group : list (Z * Z * Z * Z)) tallies database :
  fold_left
    (fun '(tallies, database) '(key, tc) =>
       let '(entries, database') := db_getitem key database in
       (tally_entries tc entries tallies, database'))
    group (tallies, database) =
  (fold_left (fun t h => tallies_incr h t) (flat_map (entry_hits database) group) tallies,
   fold_left db_touch (map fst group) database).
Proof.
  revert tallies database.
  induction group as [|[key tc] group IH]; intros tallies database; simpl; [done|].
  destruct (db_getitem key database) as [entries database'] eqn:Hget.
  rewrite IH, fold_left_app.
  assert (entries = lookup_entries database key) as ->.
  { by rewrite <- db_getitem_entries, Hget. }
  assert (database' = db_touch database key) as ->.
  { unfold db_touch. by rewrite Hget. }
  rewrite tally_entries_hits. f_equal. f_equal.
  - apply flat_map_ext. intros e. apply entry_hits_ext. intros k. apply db_touch_entries.
Qed.

Lemma query_groups_spec (fingerprints : list (list (Z * Z * Z * Z))) tallies database :
  fold_left
    (fun st fingerprint =>
       fold_left
         (fun '(tallies, database) '(key, tc) =>
            let '(entries, database') := db_getitem key database in
            (tally_entries tc entries tallies, database'))
         fingerprint st)
    fingerprints (tallies, database) =
  (fold_left (fun t h => tallies_incr h t) (query_hits fingerprints database) tallies,
   fold_left db_touch (query_keys fingerprints) database).
Proof.
  unfold query_hits, query_keys. revert tallies database.
  induction fingerprints as [|group fingerprints IH]; intros tallies database; simpl; [done|].
  rewrite query_group_spec, IH.
  rewrite flat_map_app, map_app, !fold_left_app. f_equal. f_equal.
  apply flat_map_ext. intros e. apply entry_hits_ext. intros k. apply db_touch_all_entries.
Qed.

Lemma query_tallies_spec fingerprints database :
  query_tallies fingerprints database =
  (fold_left (fun t h => tallies_incr h t) (query_hits fingerprints database) [],
   fold_left db_touch (query_keys fingerprints) database).
Proof. apply query_groups_spec. Qed.

(** *** The tally *)

Lemma tallies_incr_keys key tallies :
  map fst (tallies_incr key tallies) =
    if decide (key ∈ map fst tallies) then map fst tallies else map fst tallies ++ [key].
Proof.
  induction tallies as [|[k n] tallies IH]; [done|].
  cbn [tallies_incr map fst].
  - destruct (decide (k = key)) as [->|Hne]; cbn [map fst].
    + rewrite decide_True; [done|]. by left.
    + rewrite IH. destruct (decide (key ∈ map fst tallies)) as [Hin|Hnin].
      * rewrite decide_True; [done|]. by right.
      * rewrite decide_False; [done|]. rewrite elem_of_cons. intros [?|?]; congruence.
Qed.

Lemma tallies_incr_get key tallies k :
  tallies_get (tallies_incr key tallies) k =
    (tallies_get tallies k + if decide (key = k) then 1 else 0)%Z.
Proof.
  induction tallies as [|[k' n] tallies IH]; simpl.
  - destruct (decide (key = k)); lia.
  - destruct (decide (k' = key)) as [->|Hne]; simpl.
    + destruct (decide (key = k)); lia.
    + destruct (decide (k' = k)) as [->|Hne'].
      * rewrite decide_False by congruence. lia.
      * apply IH.
Qed.

Lemma tallies_keys_spec hits tallies :
  map fst (fold_left (fun t h => tallies_incr h t) hits tallies) =
    first_occurrences_from (map fst tallies) hits.
Proof.
  unfold first_occurrences_from. revert tallies.
  induction hits as [|h hits IH]; intros tallies; simpl; [done|].
  by rewrite IH, tallies_incr_keys.
Qed.

Lemma tallies_get_spec hits tallies k :
  tallies_get (fold_left (fun t h => tallies_incr h t) hits tallies) k =
    (tallies_get tallies k + votes k hits)%Z.
Proof.
  unfold votes. revert tallies.
  induction hits as [|h hits IH]; intros tallies; simpl; [lia|].
  rewrite IH, tallies_incr_get.
  destruct (decide (h = k)) as [->|Hne].
  - rewrite bool_decide_eq_true_2 by done. simpl. lia.
  - rewrite bool_decide_eq_false_2 by done. lia.
Qed.

Lemma first_occurrences_from_nodup seen l :
  NoDup seen -> NoDup (first_occurrences_from seen l).
Proof.
  unfold first_occurrences_from. revert seen.
  induction l as [|x l IH]; intros seen Hs; simpl; [done|].
  apply IH. case_decide; [done|].
  apply NoDup_app. split; [done|]. split; [|apply NoDup_singleton].
  intros y Hy ->%list_elem_of_singleton. done.
Qed.

Lemma first_occurrences_from_elem seen l x :
  x ∈ first_occurrences_from seen l <-> x ∈ seen \/ x ∈ l.
Proof.
  unfold first_occurrences_from. revert seen.
  induction l as [|y l IH]; intros seen; simpl.
  - rewrite elem_of_nil. tauto.
  - rewrite IH. case_decide as Hy.
    + rewrite elem_of_cons. split; [tauto|]. intros [?|[->|?]]; tauto.
    + rewrite elem_of_app, list_elem_of_singleton, elem_of_cons. tauto.
Qed.

Lemma first_occurrences_from_prefix seen l :
  exists rest, first_occurrences_from seen l = seen ++ rest.
Proof.
  unfold first_occurrences_from. revert seen.
  induction l as [|y l IH]; intros seen; simpl.
  - exists []. by rewrite app_nil_r.
  - case_decide; [apply IH|].
    destruct (IH (seen ++ [y])) as [rest ->]. exists (y :: rest).
    by rewrite <- app_assoc.
Qed.

Lemma first_occurrences_from_app seen l1 l2 :
  first_occurrences_from seen (l1 ++ l2) =
    first_occurrences_from (first_occurrences_from seen l1) l2.
Proof. unfold first_occurrences_from. by rewrite fold_left_app. Qed.

(** The key that first occurs after [pre] comes right after the distinct
    elements of [pre]. *)
Lemma first_occurrences_split pre w post :
  w ∉ pre ->
  exists rest,
    first_occurrences (pre ++ w :: post) = first_occurrences pre ++ w :: rest.
Proof.
  intros Hw. unfold first_occurrences.
  rewrite first_occurrences_from_app.
  change (w :: post) with ([w] ++ post). rewrite first_occurrences_from_app.
  unfold first_occurrences_from at 2. simpl.
  rewrite decide_False.
  2:{ rewrite first_occurrences_from_elem, elem_of_nil. tauto. }
  destruct (first_occurrences_from_prefix (first_occurrences_from [] pre ++ [w]) post)
    as [rest ->].
  exists rest. by rewrite <- app_assoc.
Qed.

Lemma split_first_unique {A : Type} (l1 l2 l1' l2' : list A) (x : A) :
  l1 ++ x :: l2 = l1' ++ x :: l2' -> ~ In x l1 -> ~ In x l1' -> l1 = l1'.
Proof.
  revert l1'. induction l1 as [|a l1 IH]; intros l1' Heq H1 H1'.
  - destruct l1' as [|a' l1']; [done|]. simpl in *. injection Heq as <- _. tauto.
  - destruct l1' as [|a' l1']; simpl in *.
    + injection Heq as -> _. tauto.
    + injection Heq as <- Heq. f_equal. apply (IH l1'); tauto.
Qed.

Lemma tallies_values_ge_1 hits tallies :
  Forall (fun kv => (1 <= snd kv)%Z) tallies ->
  Forall (fun kv => (1 <= snd kv)%Z) (fold_left (fun t h => tallies_incr h t) hits tallies).
Proof.
  revert tallies. induction hits as [|h hits IH]; intros tallies Ht; simpl; [done|].
  apply IH. clear IH. induction Ht as [|[k n] tallies Hn Ht IH']; simpl.
  - constructor; [simpl; lia|constructor].
  - destruct (decide (k = h)); constructor; simpl in *; try done; lia.
Qed.

Lemma tallies_values_get tallies :
  NoDup (map fst tallies) ->
  map snd tallies = map (tallies_get tallies) (map fst tallies).
Proof.
  induction tallies as [|[k n] tallies IH]; simpl; intros Hnd; [done|].
  apply NoDup_cons in Hnd as [Hk Hnd].
  rewrite decide_True by done. f_equal.
  rewrite IH by done. apply map_ext_in. intros k' Hk'.
  rewrite decide_False; [done|]. intros ->. apply Hk. by apply list_elem_of_In.
Qed.

Lemma query_tallies_keys fingerprints database :
  map fst (fst (query_tallies fingerprints database)) =
    first_occurrences (query_hits fingerprints database).
Proof. rewrite query_tallies_spec. simpl. apply tallies_keys_spec. Qed.

Lemma query_tallies_get fingerprints database k :
  tallies_get (fst (query_tallies fingerprints database)) k =
    votes k (query_hits fingerprints database).
Proof. rewrite query_tallies_spec. simpl. rewrite tallies_get_spec. simpl. lia. Qed.

Lemma query_tallies_values fingerprints database :
  map snd (fst (query_tallies fingerprints database)) =
    map (fun k => votes k (query_hits fingerprints database))
        (first_occurrences (query_hits fingerprints database)).
Proof.
  rewrite tallies_values_get.
  - rewrite query_tallies_keys. apply map_ext. intros k. apply query_tallies_get.
  - rewrite query_tallies_keys. apply first_occurrences_from_nodup, NoDup_nil_2.
Qed.

Lemma votes_nonneg k hits : (0 <= votes k hits)%Z.
Proof. unfold votes. lia. Qed.

Lemma votes_pos k hits : k ∈ hits -> (1 <= votes k hits)%Z.
Proof.
  unfold votes. induction hits as [|h hits IH]; [by intros ?%elem_of_nil|].
  intros [->|Hin]%elem_of_cons; simpl.
  - rewrite bool_decide_eq_true_2 by done. simpl. lia.
  - specialize (IH Hin). destruct (bool_decide _); simpl; lia.
Qed.

Lemma votes_zero k hits : k ∉ hits -> votes k hits = 0%Z.
Proof.
  unfold votes. induction hits as [|h hits IH]; [done|].
  rewrite not_elem_of_cons. intros [Hne Hnin]. simpl.
  rewrite bool_decide_eq_false_2 by congruence. by apply IH.
Qed.

Lemma query_database_unfold fingerprints database songIDs :
  query_database fingerprints database songIDs =
    (query_decision (fst (query_tallies fingerprints database)) songIDs,
     snd (query_tallies fingerprints database)).
Proof. unfold query_database. by destruct (query_tallies fingerprints database). Qed.

Lemma query_hits_ext fingerprints database database' :
  (forall k, lookup_entries database' k = lookup_entries database k) ->
  query_hits fingerprints database' = query_hits fingerprints database.
Proof.
  intros H. unfold query_hits. apply flat_map_ext. intros e. by apply entry_hits_ext.
Qed.

Lemma query_hits_no_match fingerprints database :
  (forall k, In k (query_keys fingerprints) -> lookup_entries database k = []) ->
  query_hits fingerprints database = [].
Proof.
  unfold query_hits, query_keys. induction (concat fingerprints) as [|e es IH]; simpl; [done|].
  intros H. rewrite IH by (intros; apply H; by right).
  unfold entry_hits. rewrite H by (by left). done.
Qed.

Lemma query_winner_spec fingerprints database :
  py_max (tallies_get (fst (query_tallies fingerprints database)))
         (map fst (fst (query_tallies fingerprints database))) =
    py_max (fun k => votes k (query_hits fingerprints database))
           (first_occurrences (query_hits fingerprints database)).
Proof.
  rewrite query_tallies_keys.
  destruct (first_occurrences (query_hits fingerprints database)) as [|x l]; [done|].
  simpl. f_equal. unfold py_max_from. revert x.
  induction l as [|y l IH]; intros x; simpl; [done|].
  rewrite !query_tallies_get. apply IH.
Qed.

Lemma query_decision_spec fingerprints database songIDs :
  query_decision (fst (query_tallies fingerprints database)) songIDs =
    match py_max (fun k => votes k (query_hits fingerprints database))
                 (first_occurrences (query_hits fingerprints database)) with
    | Return best =>
        match py_getitem songIDs (fst best) with
        | Some info => Return (match_message info)
        | None => Raise IndexError
        end
    | Raise e => Raise e
    end.
Proof.
  unfold query_decision.
  rewrite query_tallies_values, query_winner_spec.
  set (hits := query_hits fingerprints database).
  destruct (py_max (fun k => votes k hits) (first_occurrences hits)) as [w|e] eqn:Hmax.
  2:{ destruct (first_occurrences hits); [|done]. simpl in *. congruence. }
  rewrite (py_max_map _ _ _ Hmax). simpl.
  assert (1 <= votes w hits)%Z as Hpos.
  { apply votes_pos. apply py_max_first_max, first_max_in, list_elem_of_In in Hmax.
    apply first_occurrences_from_elem in Hmax as [Hmax|Hmax]; [|done].
    by apply elem_of_nil in Hmax. }
  replace (votes w hits =? 0)%Z with false by lia. done.
Qed.

(** [C1] The code does not return the no-match result.  Against a store
    that holds only an unrelated key the query raises [ValueError]; so does
    every query none of whose keys has a stored entry (the tally is empty
    and [max] of an empty sequence raises); and no input at all makes
    [query_database] return the no-match message. *)
Theorem query_no_match_raises :
  fst (query_database noise_query unrelated_store one_song) = Raise ValueError /\
  (forall fingerprints database songIDs,
      (forall k, In k (query_keys fingerprints) -> lookup_entries database k = []) ->
      fst (query_database fingerprints database songIDs) = Raise ValueError) /\
  (forall fingerprints database songIDs,
      fst (query_database fingerprints database songIDs) <> Return no_match_message).
Proof.
  assert (forall fingerprints database songIDs,
      (forall k, In k (query_keys fingerprints) -> lookup_entries database k = []) ->
      fst (query_database fingerprints database songIDs) = Raise ValueError) as Hraise.
  { intros G db songIDs Hmiss. rewrite query_database_unfold. simpl.
    rewrite query_decision_spec, query_hits_no_match by done. done. }
  split; [|split; [exact Hraise|]].
  - apply Hraise. intros k [<-|[]]. reflexivity.
  - intros G db songIDs. rewrite query_database_unfold. simpl.
    rewrite query_decision_spec.
    destruct (py_max _ _) as [best|]; [|done].
    destruct (py_getitem songIDs (fst best)) as [info|]; [|done].
    unfold match_message, no_match_message. simpl. discriminate.
Qed.

(** [C2], amended.  After [query_database] every key that was in the
    store still holds the same entry list; a key that was absent is present
    afterwards, bound to an empty list, exactly if the query looked it up.
    So the list a lookup yields is the same before and after for every key,
    and the store is unchanged when every looked-up key was present. *)
Theorem query_store_effect (fingerprints : list (list (Z * Z * Z * Z)))
    (database : gmap (Z * Z * Z) (list (Z * Z))) (songIDs : list (string * string)) :
  (forall k,
      snd (query_database fingerprints database songIDs) !! k =
        match database !! k with
        | Some entries => Some entries
        | None => if decide (k ∈ query_keys fingerprints) then Some [] else None
        end) /\
  (forall k,
      lookup_entries (snd (query_database fingerprints database songIDs)) k =
        lookup_entries database k) /\
  ((forall k, k ∈ query_keys fingerprints -> is_Some (database !! k)) ->
   snd (query_database fingerprints database songIDs) = database).
Proof.
  rewrite query_database_unfold, query_tallies_spec. simpl.
  split; [|split].
  - intros k. apply db_touch_all_lookup.
  - intros k. apply db_touch_all_entries.
  - intros Hall. apply map_eq. intros k. rewrite db_touch_all_lookup.
    destruct (database !! k) eqn:Hk; [done|].
    rewrite decide_False; [done|]. intros Hin. apply Hall in Hin as [? Hin]. congruence.
Qed.

(** [C2], counterexample.  Looking up a key that is absent from an empty
    store adds that key: the store is not empty afterwards. *)
Lemma query_miss_inserts_key :
  snd (query_database noise_query ∅ one_song) !! (1, 2, 3)%Z = Some [] /\
  snd (query_database noise_query ∅ one_song) <> ∅.
Proof.
  assert (snd (query_database noise_query ∅ one_song) !! (1, 2, 3)%Z = Some []) as H.
  { rewrite query_database_unfold, query_tallies_spec. simpl.
    by rewrite db_touch_lookup, lookup_empty, decide_True. }
  split; [done|]. intros Heq. rewrite Heq, lookup_empty in H. done.
Qed.

Lemma first_occurrences_nonempty l : l <> [] -> first_occurrences l <> [].
Proof.
  destruct l as [|x l]; [done|]. intros _ Hnil.
  assert (x ∈ first_occurrences (x :: l)) as Hin.
  { apply first_occurrences_from_elem. right. by left. }
  rewrite Hnil in Hin. by apply elem_of_nil in Hin.
Qed.

(** [C10] When at least one vote is cast, the key [max] selects has the
    greatest vote count, and among the keys with that count it is the one
    whose first vote comes first in the traversal (groups, entries within a
    group, stored list under each key): every key voted for before the
    winner's first vote has strictly fewer votes.  The tally lists its keys
    in the order of their first vote, [query_database] returns the message
    for the winner's song, and a second run on the store left by the first
    one returns the same result. *)
Theorem query_tie_break_first_created (fingerprints : list (list (Z * Z * Z * Z)))
    (database : gmap (Z * Z * Z) (list (Z * Z))) (songIDs : list (string * string)) :
  query_hits fingerprints database <> [] ->
  exists (winner : Z * Z) (pre post : list (Z * Z)),
    query_hits fingerprints database = pre ++ winner :: post /\
    ~ In winner pre /\
    (forall k, In k pre ->
       (votes k (query_hits fingerprints database)
        < votes winner (query_hits fingerprints database))%Z) /\
    (forall k,
       (votes k (query_hits fingerprints database)
        <= votes winner (query_hits fingerprints database))%Z) /\
    map fst (fst (query_tallies fingerprints database)) =
      first_occurrences (query_hits fingerprints database) /\
    py_max (tallies_get (fst (query_tallies fingerprints database)))
           (map fst (fst (query_tallies fingerprints database))) = Return winner /\
    fst (query_database fingerprints database songIDs) =
      match py_getitem songIDs (fst winner) with
      | Some info => Return (match_message info)
      | None => Raise IndexError
      end /\
    fst (query_database fingerprints
           (snd (query_database fingerprints database songIDs)) songIDs) =
      fst (query_database fingerprints database songIDs).
Proof.
  intros Hne.
  set (hits := query_hits fingerprints database) in *.
  destruct (py_max_nonempty (fun k => votes k hits) (first_occurrences hits))
    as [w Hmax]; [by apply first_occurrences_nonempty|].
  pose proof (py_max_first_max _ _ _ Hmax) as Hfirst.
  pose proof Hfirst as (l1 & l2 & Hsplit & Hbefore & Hafter).
  assert (w ∈ hits) as Hw.
  { apply first_max_in, list_elem_of_In in Hfirst.
    apply first_occurrences_from_elem in Hfirst as [Hin|Hin]; [|done].
    by apply elem_of_nil in Hin. }
  destruct (list_elem_of_split_l hits w Hw) as (pre & post & Hhits & Hpre).
  destruct (first_occurrences_split pre w post Hpre) as [rest Hfo].
  rewrite <- Hhits, Hsplit in Hfo.
  assert (l1 = first_occurrences pre) as Hl1.
  { apply (split_first_unique _ _ _ _ _ Hfo).
    - intros Hin. specialize (Hbefore w Hin). lia.
    - intros Hin%list_elem_of_In. apply first_occurrences_from_elem in Hin as [Hin|Hin]; [|done].
      by apply elem_of_nil in Hin. }
  exists w, pre, post. split; [done|]. split; [by rewrite <- list_elem_of_In|].
  split; [|split; [|split; [|split; [|split]]]].
  - intros k Hk. apply Hbefore. rewrite Hl1. apply list_elem_of_In.
    apply first_occurrences_from_elem. right. by apply list_elem_of_In.
  - intros k. destruct (decide (k ∈ hits)) as [Hin|Hnin].
    + apply (first_max_ge _ _ _ _ Hfirst). apply list_elem_of_In.
      apply first_occurrences_from_elem. by right.
    + rewrite (votes_zero k hits Hnin). apply votes_nonneg.
  - apply query_tallies_keys.
  - by rewrite query_winner_spec.
  - rewrite query_database_unfold. simpl. rewrite query_decision_spec. fold hits.
    by rewrite Hmax.
  - rewrite !query_database_unfold. simpl. rewrite !query_decision_spec.
    rewrite (query_hits_ext fingerprints database); [done|].
    intros k. rewrite query_tallies_spec. simpl. apply db_touch_all_entries.
Qed.

Lemma query_tie_break_first_created_witness :
  exists (winner : Z * Z) (pre post : list (Z * Z)),
    query_hits noise_query tied_store = pre ++ winner :: post /\
    ~ In winner pre /\
    (forall k, In k pre ->
       (votes k (query_hits noise_query tied_store)
        < votes winner (query_hits noise_query tied_store))%Z) /\
    (forall k,
       (votes k (query_hits noise_query tied_store)
        <= votes winner (query_hits noise_query tied_store))%Z) /\
    map fst (fst (query_tallies noise_query tied_store)) =
      first_occurrences (query_hits noise_query tied_store) /\
    py_max (tallies_get (fst (query_tallies noise_query tied_store)))
           (map fst (fst (query_tallies noise_query tied_store))) = Return winner /\
    fst (query_database noise_query tied_store two_songs) =
      match py_getitem two_songs (fst winner) with
      | Some info => Return (match_message info)
      | None => Raise IndexError
      end /\
    fst (query_database noise_query
           (snd (query_database noise_query tied_store two_songs)) two_songs) =
      fst (query_database noise_query tied_store two_songs).
Proof.
  apply (query_tie_break_first_created noise_query tied_store two_songs).
  vm_compute. discriminate.
Defined.

Example tied_query_result :
  fst (query_database noise_query tied_store two_songs) =
    Return "The song that matches this is Eine kleine Nachtmusik by Wolfgang Amadeus Mozart.".
Proof. vm_compute. reflexivity. Qed.

Lemma db_append_lookup key x database k :
  db_append key x database !! k =
    if decide (k = key) then Some (lookup_entries database key ++ [x])
    else database !! k.
Proof.
  unfold db_append, db_getitem, lookup_entries.
  destruct (database !! key) as [entries|] eqn:Hkey; simpl.
  - destruct (decide (k = key)) as [->|Hne].
    + by rewrite lookup_insert_eq.
    + by rewrite lookup_insert_ne.
  - destruct (decide (k = key)) as [->|Hne].
    + by rewrite lookup_insert_eq.
    + by rewrite !lookup_insert_ne.
Qed.

Lemma entries_for_app songID k es1 es2 :
  entries_for songID k (es1 ++ es2) = entries_for songID k es1 ++ entries_for songID k es2.
Proof. unfold entries_for. by rewrite List.filter_app, map_app. Qed.

Lemma entries_for_absent songID k es : k ∉ map fst es -> entries_for songID k es = [].
Proof.
  unfold entries_for. induction es as [|e es IH]; [done|]. simpl.
  rewrite not_elem_of_cons. intros [Hne Hnin].
  rewrite bool_decide_eq_false_2 by congruence. by apply IH.
Qed.

Lemma entries_for_cons songID k key ts es :
  entries_for songID k ((key, ts) :: es) =
    if decide (key = k) then (songID, ts) :: entries_for songID k es
    else entries_for songID k es.
Proof.
  unfold entries_for. simpl. destruct (decide (key = k)).
  - by rewrite bool_decide_eq_true_2.
  - by rewrite bool_decide_eq_false_2.
Qed.

Lemma store_group_lookup songID (es : list (Z * Z * Z * Z)) database k :
  fold_left (fun database '(key, ts) => db_append key (songID, ts) database) es database !! k =
    if decide (k ∈ map fst es)
    then Some (lookup_entries database k ++ entries_for songID k es)
    else database !! k.
Proof.
  revert database. induction es as [|[key ts] es IH]; intros database; [done|].
  cbn [fold_left]. rewrite IH. unfold lookup_entries at 1.
  rewrite !db_append_lookup, entries_for_cons. cbn [map fst].
  destruct (decide (k = key)) as [->|Hne].
  - rewrite (decide_True (P := key ∈ key :: map fst es)) by (by left).
    rewrite (decide_True (P := key = key)) by done.
    cbn [default from_option id]. case_decide as Hc.
    + by rewrite <- app_assoc.
    + by rewrite (entries_for_absent _ _ _ Hc).
  - rewrite (decide_False (P := key = k)) by congruence.
    destruct (decide (k ∈ map fst es)) as [Hin|Hnin].
    + rewrite decide_True by (by right). done.
    + rewrite decide_False; [done|]. rewrite elem_of_cons. tauto.
Qed.

Lemma store_fingerprint_lookup songID (fingerprints : list (list (Z * Z * Z * Z)))
    database k :
  store_fingerprint fingerprints songID database !! k =
    if decide (k ∈ query_keys fingerprints)
    then Some (lookup_entries database k ++ entries_for songID k (concat fingerprints))
    else database !! k.
Proof.
  unfold store_fingerprint, query_keys. revert database.
  induction fingerprints as [|group fingerprints IH]; intros database; [done|].
  cbn [fold_left concat]. rewrite IH. unfold lookup_entries at 1.
  rewrite store_group_lookup, map_app, entries_for_app.
  destruct (decide (k ∈ map fst group)) as [Hg|Hg].
  - rewrite (decide_True (P := k ∈ _ ++ _)) by (apply elem_of_app; by left).
    cbn [default from_option id]. rewrite <- app_assoc.
    case_decide as Hc; [done|]. by rewrite (entries_for_absent _ _ _ Hc), app_nil_r.
  - rewrite (entries_for_absent _ _ _ Hg). cbn [app].
    destruct (decide (k ∈ map fst (concat fingerprints))) as [Hc|Hc].
    + rewrite decide_True by (apply elem_of_app; by right). done.
    + rewrite decide_False; [done|]. rewrite elem_of_app. tauto.
Qed.

Lemma store_fingerprint_entries songID fingerprints k :
  lookup_entries (store_fingerprint fingerprints songID ∅) k =
    entries_for songID k (concat fingerprints).
Proof.
  unfold lookup_entries at 1. rewrite store_fingerprint_lookup.
  unfold lookup_entries. rewrite lookup_empty. cbn [default from_option id app].
  case_decide as Hc; [done|]. symmetry. by apply entries_for_absent.
Qed.

Lemma db_touch_all_present (keys : list (Z * Z * Z)) database :
  (forall k, k ∈ keys -> is_Some (database !! k)) ->
  fold_left db_touch keys database = database.
Proof.
  intros Hall. apply map_eq. intros k. rewrite db_touch_all_lookup.
  destruct (database !! k) eqn:Hk; [done|].
  rewrite decide_False; [done|]. intros Hin. apply Hall in Hin as [? Hin]. congruence.
Qed.

Lemma votes_app k l1 l2 : votes k (l1 ++ l2) = (votes k l1 + votes k l2)%Z.
Proof. unfold votes. rewrite List.filter_app, length_app. lia. Qed.

Lemma filter_eq_nodup {A : Type} `{EqDecision A} (x : A) (l : list A) :
  NoDup l ->
  length (List.filter (fun y => bool_decide (y = x)) l) = if decide (x ∈ l) then 1%nat else 0%nat.
Proof.
  induction 1 as [|a l Ha Hnd IH]; [done|]. simpl.
  destruct (decide (a = x)) as [->|Hne].
  - rewrite bool_decide_eq_true_2 by done. simpl.
    rewrite IH, decide_False by done. rewrite decide_True by (by left). done.
  - rewrite bool_decide_eq_false_2 by done. rewrite IH.
    destruct (decide (x ∈ l)) as [Hin|Hnin].
    + rewrite decide_True by (by right). done.
    + rewrite decide_False; [done|]. rewrite elem_of_cons. intros [?|?]; congruence.
Qed.

Lemma votes_shifted songID (es : list (Z * Z * Z * Z)) (e : Z * Z * Z * Z) (song d : Z) :
  votes (song, d)
        (map (fun st => (fst st, (snd st - snd e)%Z)) (entries_for songID (fst e) es)) =
    if decide (song = songID)
    then Z.of_nat (length (List.filter
           (fun e2 => bool_decide (e2 = (fst e, (snd e + d)%Z))) es))
    else 0%Z.
Proof.
  unfold votes. induction es as [|[k2 t2] es IH].
  - simpl. by case_decide.
  - rewrite entries_for_cons. cbn [List.filter].
    destruct (decide (k2 = fst e)) as [Hk|Hk].
    + cbn [map List.filter fst snd].
      destruct (decide ((songID, (t2 - snd e)%Z) = (song, d))) as [Heq|Hne].
      * rewrite bool_decide_eq_true_2 by done. injection Heq as <- <-.
        rewrite decide_True in * by done.
        rewrite bool_decide_eq_true_2 by (destruct e; simpl in *; f_equal; [done|lia]).
        cbn [length]. rewrite !Nat2Z.inj_succ. by rewrite IH.
      * rewrite bool_decide_eq_false_2 by done. rewrite IH.
        case_decide as Hs; [|done]. subst song.
        rewrite bool_decide_eq_false_2; [done|].
        intros [= -> Ht]. apply Hne. f_equal. lia.
    + rewrite IH. case_decide; [|done].
      rewrite bool_decide_eq_false_2; [done|]. intros [= -> _]. done.
Qed.

(** The votes one query entry casts for [(song, d)] against a store built
    from the entries [es] of one song. *)
Lemma votes_entry songID (es : list (Z * Z * Z * Z)) database (e : Z * Z * Z * Z)
    (song d : Z) :
  (forall k, lookup_entries database k = entries_for songID k es) ->
  votes (song, d) (entry_hits database e) =
    if decide (song = songID)
    then Z.of_nat (length (List.filter
           (fun e2 => bool_decide (e2 = (fst e, (snd e + d)%Z))) es))
    else 0%Z.
Proof. intros Hdb. unfold entry_hits. rewrite Hdb. apply votes_shifted. Qed.

Section round_trip.
Context (songID : Z) (es : list (Z * Z * Z * Z))
        (database : gmap (Z * Z * Z) (list (Z * Z))).
Hypothesis Hdb : forall k, lookup_entries database k = entries_for songID k es.
Hypothesis Hnodup : NoDup es.

Lemma votes_bound (key : Z * Z) (query : list (Z * Z * Z * Z)) :
  (votes key (flat_map (entry_hits database) query) <= Z.of_nat (length query))%Z.
Proof.
  destruct key as [song d].
  induction query as [|e query IH]; simpl; [done|].
  rewrite votes_app, (votes_entry songID es) by done.
  case_decide; [|lia]. rewrite filter_eq_nodup by done. case_decide; lia.
Qed.

Lemma votes_aligned (query : list (Z * Z * Z * Z)) :
  (forall e, e ∈ query -> e ∈ es) ->
  votes (songID, 0%Z) (flat_map (entry_hits database) query) = Z.of_nat (length query).
Proof.
  induction query as [|e query IH]; intros Hsub; simpl; [done|].
  rewrite votes_app, (votes_entry songID es) by done.
  rewrite decide_True by done. rewrite filter_eq_nodup by done.
  rewrite decide_True.
  2:{ rewrite Z.add_0_r. destruct e. apply Hsub. by left. }
  rewrite IH; [lia|]. intros e' He'. apply Hsub. by right.
Qed.

Lemma hits_song (query : list (Z * Z * Z * Z)) (key : Z * Z) :
  key ∈ flat_map (entry_hits database) query -> fst key = songID.
Proof.
  intros Hin%list_elem_of_In. apply in_flat_map in Hin as (e & _ & Hin).
  unfold entry_hits in Hin. rewrite Hdb in Hin. unfold entries_for in Hin.
  apply in_map_iff in Hin as (st & <- & Hin).
  apply in_map_iff in Hin as (e2 & <- & _). done.
Qed.
End round_trip.

(** [C3], amended.  Let the groups G hold at least one entry and no entry
    twice.  After storing G under song s into an empty store, the query with
    the same G finds a greatest tally equal to the number of entries of G,
    selects a key of song s, returns the message for the catalog entry at
    index s ([IndexError] if the catalog has none) and leaves the store as
    it was. *)
Theorem store_query_round_trip (fingerprints : list (list (Z * Z * Z * Z))) (songID : Z)
    (songIDs : list (string * string)) :
  concat fingerprints <> [] ->
  NoDup (concat fingerprints) ->
  py_max (fun v => v)
         (map snd (fst (query_tallies fingerprints
                          (store_fingerprint fingerprints songID ∅)))) =
    Return (Z.of_nat (length (concat fingerprints))) /\
  (exists offset,
      py_max (tallies_get (fst (query_tallies fingerprints
                                  (store_fingerprint fingerprints songID ∅))))
             (map fst (fst (query_tallies fingerprints
                              (store_fingerprint fingerprints songID ∅)))) =
        Return (songID, offset)) /\
  query_database fingerprints (store_fingerprint fingerprints songID ∅) songIDs =
    (match py_getitem songIDs songID with
     | Some info => Return (match_message info)
     | None => Raise IndexError
     end,
     store_fingerprint fingerprints songID ∅).
Proof.
  intros Hne Hnd.
  set (db := store_fingerprint fingerprints songID ∅).
  set (es := concat fingerprints) in *.
  assert (Hdb : forall k, lookup_entries db k = entries_for songID k es).
  { intros k. apply store_fingerprint_entries. }
  set (hits := query_hits fingerprints db).
  assert (Haligned : votes (songID, 0%Z) hits = Z.of_nat (length es)).
  { apply (votes_aligned songID es db Hdb Hnd). done. }
  assert (Hpos : (1 <= Z.of_nat (length es))%Z).
  { destruct es; [done|]. simpl. lia. }
  assert (Hin0 : (songID, 0%Z) ∈ hits).
  { destruct (decide ((songID, 0%Z) ∈ hits)) as [?|Hnin]; [done|].
    rewrite (votes_zero _ _ Hnin) in Haligned. lia. }
  destruct (py_max_nonempty (fun k => votes k hits) (first_occurrences hits))
    as [w Hmax].
  { apply first_occurrences_nonempty. intros Hnil. rewrite Hnil in Hin0.
    by apply elem_of_nil in Hin0. }
  pose proof (py_max_first_max _ _ _ Hmax) as Hfirst.
  assert (Hw : w ∈ hits).
  { apply first_max_in, list_elem_of_In in Hfirst.
    apply first_occurrences_from_elem in Hfirst as [Hin|Hin]; [|done].
    by apply elem_of_nil in Hin. }
  assert (Hvotes : votes w hits = Z.of_nat (length es)).
  { apply Z.le_antisymm.
    - apply (votes_bound songID es db Hdb Hnd).
    - rewrite <- Haligned. apply (first_max_ge _ _ _ _ Hfirst).
      apply list_elem_of_In, first_occurrences_from_elem. by right. }
  assert (Hsong : fst w = songID) by (by apply (hits_song songID es db Hdb es)).
  split; [|split].
  - rewrite query_tallies_values. fold hits.
    rewrite (py_max_map _ _ _ Hmax). by rewrite Hvotes.
  - exists (snd w). rewrite query_winner_spec. fold hits. rewrite Hmax.
    destruct w. simpl in *. by subst.
  - rewrite query_database_unfold, query_decision_spec. fold hits. rewrite Hmax, Hsong.
    f_equal. rewrite query_tallies_spec. simpl. apply db_touch_all_present.
    intros k Hk. unfold db. rewrite store_fingerprint_lookup.
    rewrite decide_True by done. done.
Qed.

Lemma store_query_round_trip_witness :
  py_max (fun v => v)
         (map snd (fst (query_tallies example_groups
                          (store_fingerprint example_groups 0 ∅)))) =
    Return (Z.of_nat (length (concat example_groups))) /\
  (exists offset,
      py_max (tallies_get (fst (query_tallies example_groups
                                  (store_fingerprint example_groups 0 ∅))))
             (map fst (fst (query_tallies example_groups
                              (store_fingerprint example_groups 0 ∅)))) =
        Return (0%Z, offset)) /\
  query_database example_groups (store_fingerprint example_groups 0 ∅) one_song =
    (match py_getitem one_song 0 with
     | Some info => Return (match_message info)
     | None => Raise IndexError
     end,
     store_fingerprint example_groups 0 ∅).
Proof.
  apply (store_query_round_trip example_groups 0 one_song).
  - vm_compute. discriminate.
  - apply (bool_decide_unpack _). vm_compute. exact I.
Defined.

(** [C3], counterexample.  When G holds one entry twice, each of the two
    query entries meets both stored copies: the greatest tally is 4, not the
    number of entries, 2. *)
Lemma duplicate_entries_tally :
  py_max (fun v => v)
         (map snd (fst (query_tallies duplicate_query
                          (store_fingerprint duplicate_query 0 ∅)))) = Return 4%Z /\
  py_max (fun v => v)
         (map snd (fst (query_tallies duplicate_query
                          (store_fingerprint duplicate_query 0 ∅)))) <>
    Return (Z.of_nat (length (concat duplicate_query))).
Proof. split; vm_compute; [reflexivity|discriminate]. Qed.

(** * Further properties of the code *)

(** [X1] [store_fingerprint] only appends.  Under every key the list found
    afterwards is the list that was there, followed by one pair
    [(songID, anchor time)] for each entry of the groups with that key, in
    the order of the groups and of the entries within them, repeated
    entries included.  A key that occurs in no entry is left as it was,
    absent if it was absent; a key that occurs in an entry is present
    afterwards. *)
Theorem store_fingerprint_appends (fingerprints : list (list (Z * Z * Z * Z))) (songID : Z)
    (database : gmap (Z * Z * Z) (list (Z * Z))) (key : Z * Z * Z) :
  lookup_entries (store_fingerprint fingerprints songID database) key =
    lookup_entries database key ++
    map (fun e => (songID, snd e))
        (List.filter (fun e => bool_decide (fst e = key)) (concat fingerprints)) /\
  (key ∉ query_keys fingerprints ->
   store_fingerprint fingerprints songID database !! key = database !! key) /\
  (key ∈ query_keys fingerprints ->
   is_Some (store_fingerprint fingerprints songID database !! key)).
Proof.
  split; [|split].
  - unfold lookup_entries at 1. rewrite store_fingerprint_lookup.
    fold (entries_for songID key (concat fingerprints)).
    case_decide as Hk; [done|].
    rewrite (entries_for_absent _ _ _ Hk), app_nil_r. done.
  - intros Hk. rewrite store_fingerprint_lookup. by rewrite decide_False.
  - intros Hk. rewrite store_fingerprint_lookup. rewrite decide_True by done. done.
Qed.


Lemma in_query_hits fingerprints database (hit : Z * Z) :
  In hit (query_hits fingerprints database) <->
  exists key tc ts,
    In (key, tc) (concat fingerprints) /\
    In (fst hit, ts) (lookup_entries database key) /\
    snd hit = (ts - tc)%Z.
Proof.
  unfold query_hits. rewrite in_flat_map. split.
  - intros ([key tc] & He & Hin). unfold entry_hits in Hin.
    apply in_map_iff in Hin as ([sid ts] & <- & Hst). simpl in *.
    exists key, tc, ts. done.
  - intros (key & tc & ts & He & Hst & Hoff). exists (key, tc). split; [done|].
    unfold entry_hits. apply in_map_iff. exists (fst hit, ts). simpl.
    split; [|done]. destruct hit. simpl in *. by subst.
Qed.


(** [X3] The lookups of a query insert every missing key the first time;
    running the same query again, with any catalog, leaves the store exactly
    as the first run left it. *)
Theorem query_store_settles (fingerprints : list (list (Z * Z * Z * Z)))
    (database : gmap (Z * Z * Z) (list (Z * Z))) (songIDs songIDs' : list (string * string)) :
  snd (query_database fingerprints
         (snd (query_database fingerprints database songIDs)) songIDs') =
    snd (query_database fingerprints database songIDs).
Proof.
  rewrite !query_database_unfold. cbn [snd]. rewrite !query_tallies_spec. cbn [snd].
  apply db_touch_all_present. intros k Hk.
  rewrite db_touch_all_lookup. destruct (database !! k); [done|].
  by rewrite decide_True.
Qed.

Lemma tallies_incr_sum key tallies :
  sum_Z (map snd (tallies_incr key tallies)) = (sum_Z (map snd tallies) + 1)%Z.
Proof.
  induction tallies as [|[k n] tallies IH]; simpl; [done|].
  destruct (decide (k = key)); simpl; [lia|]. rewrite IH. lia.
Qed.

Lemma tallies_fold_sum hits tallies :
  sum_Z (map snd (fold_left (fun t h => tallies_incr h t) hits tallies)) =
    (sum_Z (map snd tallies) + Z.of_nat (length hits))%Z.
Proof.
  revert tallies. induction hits as [|h hits IH]; intros tallies; simpl; [lia|].
  rewrite IH, tallies_incr_sum. lia.
Qed.

(** [X4] The tally the loops of [query_database] build: its keys are
    pairwise distinct and are exactly the (songID, offset) pairs that got a
    vote, every count is at least 1, the count of a pair is the number of
    votes it got, and the counts add up to the number of votes cast, one per
    pair of a query entry and a stored entry under the same key. *)
Theorem query_tallies_invariants (fingerprints : list (list (Z * Z * Z * Z)))
    (database : gmap (Z * Z * Z) (list (Z * Z))) :
  NoDup (map fst (fst (query_tallies fingerprints database))) /\
  Forall (fun kv => (1 <= snd kv)%Z) (fst (query_tallies fingerprints database)) /\
  sum_Z (map snd (fst (query_tallies fingerprints database))) =
    Z.of_nat (length (query_hits fingerprints database)) /\
  (forall key, In key (map fst (fst (query_tallies fingerprints database))) <->
               In key (query_hits fingerprints database)) /\
  (forall key, tallies_get (fst (query_tallies fingerprints database)) key =
               votes key (query_hits fingerprints database)).
Proof.
  split; [|split; [|split; [|split]]].
  - rewrite query_tallies_keys. apply first_occurrences_from_nodup, NoDup_nil_2.
  - rewrite query_tallies_spec. cbn [fst]. apply tallies_values_ge_1. constructor.
  - rewrite query_tallies_spec. cbn [fst]. rewrite tallies_fold_sum. simpl. lia.
  - intros key. rewrite query_tallies_keys, <- !list_elem_of_In.
    unfold first_occurrences. rewrite first_occurrences_from_elem, elem_of_nil. tauto.
  - apply query_tallies_get.
Qed.

Lemma votes_self_stored (songID : Z) (es : list (Z * Z * Z * Z)) (old : list (Z * Z))
    (e : Z * Z * Z * Z) :
  In e es ->
  (1 <= votes (songID, 0%Z)
          (map (fun st => (fst st, (snd st - snd e)%Z))
               (old ++ entries_for songID (fst e) es)))%Z.
Proof.
  intros He. apply votes_pos. apply list_elem_of_In, in_map_iff.
  exists (songID, snd e). split; [simpl; f_equal; lia|].
  apply in_or_app. right. unfold entries_for. apply in_map_iff.
  exists e. split; [done|]. apply filter_In. split; [done|].
  by apply bool_decide_eq_true_2.
Qed.

Lemma votes_stored_bound (songID : Z) (es : list (Z * Z * Z * Z))
    (database : gmap (Z * Z * Z) (list (Z * Z))) (query : list (Z * Z * Z * Z)) :
  (forall k, exists old, lookup_entries database k = old ++ entries_for songID k es) ->
  (forall e, In e query -> In e es) ->
  (Z.of_nat (length query) <= votes (songID, 0%Z) (flat_map (entry_hits database) query))%Z.
Proof.
  intros Hdb. induction query as [|e query IH]; intros Hsub; simpl; [unfold votes; simpl; lia|].
  rewrite votes_app.
  assert (1 <= votes (songID, 0%Z) (entry_hits database e))%Z.
  { unfold entry_hits. destruct (Hdb (fst e)) as [old ->].
    apply votes_self_stored. apply Hsub. by left. }
  assert (Z.of_nat (length query) <=
          votes (songID, 0%Z) (flat_map (entry_hits database) query))%Z.
  { apply IH. intros e' He'. apply Hsub. by right. }
  lia.
Qed.

(** [X5] After [store_fingerprint] has stored a song's groups into any
    store, empty or not, the query with the same groups gives the pair
    (song, offset 0) at least as many votes as the groups have entries, so
    the winning count is at least that number; the query does not raise
    [ValueError] and leaves the store unchanged, provided the groups hold at
    least one entry. *)
Theorem stored_song_votes (fingerprints : list (list (Z * Z * Z * Z))) (songID : Z)
    (database : gmap (Z * Z * Z) (list (Z * Z))) (songIDs : list (string * string)) :
  concat fingerprints <> [] ->
  (Z.of_nat (length (concat fingerprints)) <=
   tallies_get (fst (query_tallies fingerprints
                       (store_fingerprint fingerprints songID database)))
               (songID, 0%Z))%Z /\
  (exists winner,
      py_max (tallies_get (fst (query_tallies fingerprints
                                  (store_fingerprint fingerprints songID database))))
             (map fst (fst (query_tallies fingerprints
                              (store_fingerprint fingerprints songID database)))) =
        Return winner /\
      (Z.of_nat (length (concat fingerprints)) <=
       tallies_get (fst (query_tallies fingerprints
                           (store_fingerprint fingerprints songID database))) winner)%Z) /\
  fst (query_database fingerprints
         (store_fingerprint fingerprints songID database) songIDs) <> Raise ValueError /\
  snd (query_database fingerprints
         (store_fingerprint fingerprints songID database) songIDs) =
    store_fingerprint fingerprints songID database.
Proof.
  intros Hne.
  set (db := store_fingerprint fingerprints songID database).
  set (hits := query_hits fingerprints db).
  assert (Hbound : (Z.of_nat (length (concat fingerprints)) <= votes (songID, 0%Z) hits)%Z).
  { apply (votes_stored_bound songID (concat fingerprints)); [|done].
    intros k. exists (lookup_entries database k). unfold db, lookup_entries at 1.
    rewrite store_fingerprint_lookup. case_decide as Hk; [done|].
    rewrite (entries_for_absent _ _ _ Hk), app_nil_r. done. }
  assert (Hpos : (1 <= Z.of_nat (length (concat fingerprints)))%Z).
  { destruct (concat fingerprints); [done|]. simpl. lia. }
  assert (Hin : (songID, 0%Z) ∈ hits).
  { destruct (decide ((songID, 0%Z) ∈ hits)) as [?|Hnin]; [done|].
    rewrite (votes_zero _ _ Hnin) in Hbound. lia. }
  destruct (py_max_nonempty (fun k => votes k hits) (first_occurrences hits)) as [w Hmax].
  { apply first_occurrences_nonempty. intros Hnil. rewrite Hnil in Hin.
    by apply elem_of_nil in Hin. }
  pose proof (py_max_first_max _ _ _ Hmax) as Hfirst.
  split; [|split; [|split]].
  - by rewrite query_tallies_get.
  - exists w. rewrite query_winner_spec. split; [done|].
    rewrite query_tallies_get. fold db hits.
    etransitivity; [exact Hbound|].
    apply (first_max_ge _ _ _ _ Hfirst).
    apply list_elem_of_In, first_occurrences_from_elem. by right.
  - rewrite query_database_unfold. cbn [fst]. rewrite query_decision_spec.
    fold db hits. rewrite Hmax. destruct (py_getitem songIDs (fst w)); discriminate.
  - rewrite query_database_unfold. cbn [snd]. rewrite query_tallies_spec. cbn [snd].
    apply db_touch_all_present. intros k Hk. unfold db.
    rewrite store_fingerprint_lookup. by rewrite decide_True.
Qed.

Lemma stored_song_votes_witness :
  (Z.of_nat (length (concat example_groups)) <=
   tallies_get (fst (query_tallies example_groups
                       (store_fingerprint example_groups 1 tied_store)))
               (1%Z, 0%Z))%Z.
Proof.
  apply (stored_song_votes example_groups 1 tied_store two_songs).
  vm_compute. discriminate.
Defined.

Lemma StronglySorted_irrefl_NoDup {A : Type} (R : A -> A -> Prop) (l : list A) :
  (forall x, ~ R x x) -> StronglySorted R l -> NoDup l.
Proof.
  intros Hirr. induction 1 as [|a l Hs IH Ha]; constructor; [|done].
  intros Hin%list_elem_of_In. apply (Hirr a).
  by apply (proj1 (List.Forall_forall _ _) Ha).
Qed.

Lemma ndindex_length (n0 n1 : nat) : length (ndindex n0 n1) = (n0 * n1)%nat.
Proof.
  unfold ndindex. generalize 0%nat at 2. induction n0 as [|n0 IH]; intros start; simpl; [done|].
  rewrite length_app, length_map, length_seq, IH. done.
Qed.

Lemma ndindex_NoDup (n0 n1 : nat) : NoDup (ndindex n0 n1).
Proof.
  apply (StronglySorted_irrefl_NoDup ndindex_lt); [|apply ndindex_sorted].
  intros [a b]. unfold ndindex_lt. simpl. lia.
Qed.

Lemma peaks_nodup data_2d ro co amp_min : NoDup (_peaks data_2d ro co amp_min).
Proof.
  apply (StronglySorted_irrefl_NoDup column_major_lt); [|apply peaks_column_major].
  intros [r c]. unfold column_major_lt. simpl. lia.
Qed.

(** [X8] Every pair [_peaks] returns is a cell of the array, no cell is
    returned twice, there are at most rows * columns peaks, and an array with
    no rows or no columns has no peaks. *)
Theorem peaks_are_distinct_cells (data_2d : ndarray Q)
    (nbrhd_row_offsets nbrhd_col_offsets : list Z) (amp_min : Q) :
  Forall (fun p => in_bounds data_2d (fst p) (snd p))
         (_peaks data_2d nbrhd_row_offsets nbrhd_col_offsets amp_min) /\
  NoDup (_peaks data_2d nbrhd_row_offsets nbrhd_col_offsets amp_min) /\
  (length (_peaks data_2d nbrhd_row_offsets nbrhd_col_offsets amp_min)
   <= shape0 data_2d * shape1 data_2d)%nat /\
  ((shape0 data_2d = 0%nat \/ shape1 data_2d = 0%nat) ->
   _peaks data_2d nbrhd_row_offsets nbrhd_col_offsets amp_min = []).
Proof.
  assert (Hlen : (length (_peaks data_2d nbrhd_row_offsets nbrhd_col_offsets amp_min)
                  <= shape0 data_2d * shape1 data_2d)%nat).
  { rewrite peaks_filter, length_map.
    etransitivity; [apply filter_length_le|]. rewrite ndindex_length. lia. }
  split; [|split; [|split]].
  - apply List.Forall_forall. intros [r c] Hin. apply in_peaks_iff in Hin. simpl. tauto.
  - apply peaks_nodup.
  - exact Hlen.
  - intros Hzero.
    destruct (_peaks data_2d nbrhd_row_offsets nbrhd_col_offsets amp_min); [done|].
    simpl in Hlen. destruct Hzero as [Hz|Hz]; rewrite Hz in Hlen; lia.
Qed.

Lemma list_argmax {A : Type} (f : A -> Q) (l : list A) :
  l <> [] -> exists m, In m l /\ forall x, In x l -> (f x <= f m)%Q.
Proof.
  induction l as [|a l IH]; [done|]. intros _.
  destruct l as [|b l'].
  - exists a. split; [by left|]. intros x [<-|[]]. lra.
  - destruct IH as (m & Hm & Hmax); [done|].
    destruct (Qlt_le_dec (f m) (f a)) as [Hlt|Hle].
    + exists a. split; [by left|]. intros x [<-|Hx]; [lra|].
      specialize (Hmax x Hx). lra.
    + exists m. split; [by right|]. intros x [<-|Hx]; [done|by apply Hmax].
Qed.

(** [X9] A cell above the cutoff that no cell of the array exceeds is
    always returned, whatever the neighborhood offsets are.  Hence the peak
    list is non-empty exactly when some cell is above the cutoff. *)
Theorem greatest_cell_is_peak (data_2d : ndarray Q)
    (nbrhd_row_offsets nbrhd_col_offsets : list Z) (amp_min : Q) :
  (forall r c,
      in_bounds data_2d r c ->
      (amp_min < getitem 0%Q data_2d r c)%Q ->
      (forall r' c', in_bounds data_2d r' c' ->
                     (getitem 0%Q data_2d r' c' <= getitem 0%Q data_2d r c)%Q) ->
      In (r, c) (_peaks data_2d nbrhd_row_offsets nbrhd_col_offsets amp_min)) /\
  (_peaks data_2d nbrhd_row_offsets nbrhd_col_offsets amp_min <> [] <->
   exists r c, in_bounds data_2d r c /\ (amp_min < getitem 0%Q data_2d r c)%Q).
Proof.
  assert (Hmax : forall r c,
      in_bounds data_2d r c ->
      (amp_min < getitem 0%Q data_2d r c)%Q ->
      (forall r' c', in_bounds data_2d r' c' ->
                     (getitem 0%Q data_2d r' c' <= getitem 0%Q data_2d r c)%Q) ->
      In (r, c) (_peaks data_2d nbrhd_row_offsets nbrhd_col_offsets amp_min)).
  { intros r c Hb Hcut Hall. apply in_peaks_iff. split; [done|]. split; [done|].
    apply neighbor_scan_true. intros dr dc _ _ Hnb Hlt.
    specialize (Hall _ _ Hnb). lra. }
  split; [exact Hmax|]. split.
  - intros Hne.
    destruct (_peaks data_2d nbrhd_row_offsets nbrhd_col_offsets amp_min)
      as [|[r c] rest] eqn:Hp; [done|].
    assert (In (r, c) (_peaks data_2d nbrhd_row_offsets nbrhd_col_offsets amp_min)) as Hin.
    { rewrite Hp. by left. }
    apply in_peaks_iff in Hin. exists r, c. tauto.
  - intros (r & c & Hb & Hcut).
    set (cells := List.filter
           (fun cr => negb (Qle_bool (getitem 0%Q data_2d (snd cr) (fst cr)) amp_min))
           (ndindex (shape1 data_2d) (shape0 data_2d))).
    assert (In (c, r) cells) as Hin.
    { apply filter_In. split; [apply in_ndindex; unfold in_bounds in Hb; tauto|].
      simpl. by apply negb_true_iff, Qle_bool_false_iff. }
    destruct (list_argmax (fun cr => getitem 0%Q data_2d (snd cr) (fst cr)) cells)
      as ([cm rm] & Hm & Hbest).
    { intros Hnil. rewrite Hnil in Hin. destruct Hin. }
    apply filter_In in Hm as [Hmb Hmcut]. simpl in *.
    apply in_ndindex in Hmb. apply negb_true_iff, Qle_bool_false_iff in Hmcut.
    assert (In (rm, cm) (_peaks data_2d nbrhd_row_offsets nbrhd_col_offsets amp_min)) as Hpk.
    { apply Hmax; [unfold in_bounds; tauto|done|].
      intros r' c' Hb'.
      destruct (Qlt_le_dec amp_min (getitem 0%Q data_2d r' c')) as [Habove|Hbelow]; [|lra].
      apply (Hbest (c', r')). apply filter_In.
      split; [apply in_ndindex; unfold in_bounds in Hb'; tauto|].
      simpl. by apply negb_true_iff, Qle_bool_false_iff. }
    intros Hnil. rewrite Hnil in Hpk. destruct Hpk.
Qed.

Lemma zip_map_fst_snd {A B C D : Type} (f : A -> C) (g : B -> D) (l : list (A * B)) :
  zip (map f (map fst l)) (map g (map snd l)) = map (fun ab => (f (fst ab), g (snd ab))) l.
Proof. induction l as [|[a b] l IH]; simpl; [done|]. by rewrite IH. Qed.

Lemma local_peak_locations_unfold data_2d (nbrhd : ndarray bool) amp_min :
  _local_peak_locations data_2d nbrhd amp_min =
    if (Nat.eqb (shape0 nbrhd mod 2) 1 && Nat.eqb (shape1 nbrhd mod 2) 1)%bool
    then Return (_peaks data_2d (map fst (mask_offsets nbrhd))
                        (map snd (mask_offsets nbrhd)) amp_min)
    else Raise AssertionError.
Proof.
  unfold _local_peak_locations, np_where, mask_offsets.
  destruct (Nat.eqb (shape0 nbrhd mod 2) 1); cbn [negb andb]; [|done].
  destruct (Nat.eqb (shape1 nbrhd mod 2) 1); cbn [negb andb]; [|done].
  f_equal. f_equal.
  - rewrite !map_map. done.
  - rewrite !map_map. done.
Qed.

Lemma in_mask_offsets (nbrhd : ndarray bool) (dr dc : Z) :
  In (dr, dc) (mask_offsets nbrhd) <->
  exists i j,
    (0 <= i < Z.of_nat (shape0 nbrhd))%Z /\ (0 <= j < Z.of_nat (shape1 nbrhd))%Z /\
    getitem false nbrhd i j = true /\
    dr = (i - Z.of_nat (shape0 nbrhd / 2))%Z /\ dc = (j - Z.of_nat (shape1 nbrhd / 2))%Z.
Proof.
  unfold mask_offsets. rewrite in_map_iff. split.
  - intros ([i j] & [= <- <-] & Hin). apply filter_In in Hin as [Hin Hm].
    apply in_ndindex in Hin. exists i, j. simpl. tauto.
  - intros (i & j & Hi & Hj & Hm & -> & ->). exists (i, j). split; [done|].
    apply filter_In. split; [by apply in_ndindex|done].
Qed.

Lemma zip_fst_snd_id {A B : Type} (l : list (A * B)) : zip (map fst l) (map snd l) = l.
Proof. induction l as [|[a b] l IH]; simpl; [done|]. by rewrite IH. Qed.

Lemma mod2_odd (n : nat) : Nat.eqb (n mod 2) 1 = true <-> Nat.Odd n.
Proof.
  rewrite Nat.eqb_eq. rewrite <- Nat.odd_spec.
  rewrite <- Nat.bit0_mod, Nat.bit0_odd. destruct (Nat.odd n); simpl; split; congruence.
Qed.

Lemma mod2_even (n : nat) : Nat.eqb (n mod 2) 1 = false <-> Nat.Even n.
Proof.
  rewrite <- not_true_iff_false, mod2_odd.
  rewrite <- Nat.odd_spec, <- Nat.even_spec, <- Nat.negb_odd.
  destruct (Nat.odd n); simpl; split; congruence.
Qed.

(** [X12] [_local_peak_locations] raises [AssertionError] exactly when
    the mask has an even number of rows or of columns.  For a mask with odd
    dimensions it returns a peak list, and a cell is in it exactly when it
    lies in the array, its amplitude exceeds the cutoff, and no in-bounds
    cell at the position of a true mask cell other than the centre, the mask
    being centred on the cell, has a greater amplitude. *)
Theorem local_peak_locations_mask (data_2d : ndarray Q) (nbrhd : ndarray bool) (amp_min : Q) :
  (_local_peak_locations data_2d nbrhd amp_min = Raise AssertionError <->
   Nat.Even (shape0 nbrhd) \/ Nat.Even (shape1 nbrhd)) /\
  (Nat.Odd (shape0 nbrhd) -> Nat.Odd (shape1 nbrhd) ->
   exists peaks,
     _local_peak_locations data_2d nbrhd amp_min = Return peaks /\
     forall r c,
       In (r, c) peaks <->
       in_bounds data_2d r c /\
       (amp_min < getitem 0%Q data_2d r c)%Q /\
       forall i j,
         (0 <= i < Z.of_nat (shape0 nbrhd))%Z -> (0 <= j < Z.of_nat (shape1 nbrhd))%Z ->
         getitem false nbrhd i j = true ->
         (i, j) <> (Z.of_nat (shape0 nbrhd / 2), Z.of_nat (shape1 nbrhd / 2)) ->
         in_bounds data_2d (r + (i - Z.of_nat (shape0 nbrhd / 2)))
                           (c + (j - Z.of_nat (shape1 nbrhd / 2))) ->
         (getitem 0%Q data_2d (r + (i - Z.of_nat (shape0 nbrhd / 2)))
                              (c + (j - Z.of_nat (shape1 nbrhd / 2)))
          <= getitem 0%Q data_2d r c)%Q).
Proof.
  rewrite local_peak_locations_unfold.
  pose proof mod2_odd as Hpar. pose proof mod2_even as Hev.
  split.
  - destruct (Nat.eqb (shape0 nbrhd mod 2) 1) eqn:H0; cbn [andb].
    + destruct (Nat.eqb (shape1 nbrhd mod 2) 1) eqn:H1.
      * split; [intros H; discriminate H|]. intros [He|He]; apply Hev in He; congruence.
      * split; [|done]. intros _. right. by apply Hev.
    + split; [|done]. intros _. left. by apply Hev.
  - intros H0%Hpar H1%Hpar. rewrite H0, H1. cbn [andb]. eexists. split; [reflexivity|].
    intros r c. rewrite in_peaks_iff, zip_fst_snd_id, neighbor_scan_true.
    split; intros (Hb & Hcut & Hall); (split; [done|]); (split; [done|]).
    + intros i j Hi Hj Hm Hcentre Hnb.
      apply Qnot_lt_le. apply (Hall _ _); [| |done].
      * apply in_mask_offsets. exists i, j. done.
      * intros Heq. apply Hcentre.
        assert (i - Z.of_nat (shape0 nbrhd / 2) = 0)%Z as Hr by congruence.
        assert (j - Z.of_nat (shape1 nbrhd / 2) = 0)%Z as Hc by congruence.
        f_equal; lia.
    + intros dr dc Hin Hnz Hnb.
      apply in_mask_offsets in Hin as (i & j & Hi & Hj & Hm & -> & ->).
      apply Qle_not_lt. apply Hall; try done.
      intros Heq. apply Hnz.
      assert (i = Z.of_nat (shape0 nbrhd / 2)) as Hr by congruence.
      assert (j = Z.of_nat (shape1 nbrhd / 2)) as Hc by congruence.
      f_equal; lia.
Qed.

Lemma local_peak_locations_mask_witness :
  exists peaks,
    _local_peak_locations ridge_example cross_mask 0%Q = Return peaks /\
    (In (0, 1)%Z peaks <->
       in_bounds ridge_example 0 1 /\
       (0 < getitem 0%Q ridge_example 0 1)%Q /\
       forall i j,
         (0 <= i < Z.of_nat (shape0 cross_mask))%Z -> (0 <= j < Z.of_nat (shape1 cross_mask))%Z ->
         getitem false cross_mask i j = true ->
         (i, j) <> (Z.of_nat (shape0 cross_mask / 2), Z.of_nat (shape1 cross_mask / 2)) ->
         in_bounds ridge_example (0 + (i - Z.of_nat (shape0 cross_mask / 2)))
                                 (1 + (j - Z.of_nat (shape1 cross_mask / 2))) ->
         (getitem 0%Q ridge_example (0 + (i - Z.of_nat (shape0 cross_mask / 2)))
                                    (1 + (j - Z.of_nat (shape1 cross_mask / 2)))
          <= getitem 0%Q ridge_example 0 1)%Q).
Proof.
  destruct (proj2 (local_peak_locations_mask ridge_example cross_mask 0%Q))
    as (peaks & Hret & Hiff).
  - exists 1%nat. reflexivity.
  - exists 1%nat. reflexivity.
  - exists peaks. split; [exact Hret|]. apply Hiff.
Defined.

Example ridge_peaks :
  _local_peak_locations ridge_example cross_mask 0%Q = Return [(0, 1); (1, 2)]%Z.
Proof. reflexivity. Qed.

Lemma filter_length_mono {A} (f g : A -> bool) (l : list A) :
  (forall x, In x l -> f x = true -> g x = true) ->
  (length (List.filter f l) <= length (List.filter g l))%nat.
Proof.
  induction l as [|a l IH]; intros H; simpl; [done|].
  assert (length (List.filter f l) <= length (List.filter g l))%nat as IH'.
  { apply IH. intros x Hx. apply H. by right. }
  destruct (f a) eqn:Hf.
  - rewrite (H a (or_introl eq_refl) Hf). simpl. lia.
  - destruct (g a); simpl; lia.
Qed.

Lemma filter_seq_nth {A} (f : A -> bool) (d : A) (l : list A) (start : nat) :
  length (List.filter (fun i => f (nth (i - start) l d)) (seq start (length l))) =
  length (List.filter f l).
Proof.
  revert start. induction l as [|a l IH]; intros start; simpl; [done|].
  rewrite Nat.sub_diag.
  assert (length (List.filter (fun i => f (match (i - start)%nat with
                                           | O => a | S m => nth m l d end))
                              (seq (S start) (length l))) =
          length (List.filter f l)) as Hrest.
  { rewrite <- (IH (S start)). apply filter_length_ext.
    intros i Hi. apply in_seq in Hi.
    replace (i - start)%nat with (S (i - S start)) by lia. done. }
  destruct (f a); simpl; by rewrite Hrest.
Qed.

Lemma NoDup_map_on {A B} (f : A -> B) (l : list A) :
  (forall x y, In x l -> In y l -> f x = f y -> x = y) ->
  NoDup l -> NoDup (map f l).
Proof.
  intros Hinj. induction 1 as [|a l Ha Hnd IH]; simpl; constructor.
  - intros Hin%list_elem_of_In. apply in_map_iff in Hin as (y & Hy & Hin).
    apply Ha. apply list_elem_of_In.
    rewrite (Hinj a y); [done|by left|by right|done].
  - apply IH. intros x y Hx Hy. apply Hinj; by right.
Qed.

Lemma cells_above_bound (data_2d : ndarray Q) (amp_min : Q) :
  well_formed data_2d ->
  (length (List.filter
             (fun cr => negb (Qle_bool (getitem 0%Q data_2d (snd cr) (fst cr)) amp_min))
             (ndindex (shape1 data_2d) (shape0 data_2d)))
   <= count_gt amp_min (buf data_2d))%nat.
Proof.
  intros Hwf. unfold well_formed in Hwf.
  set (W := shape1 data_2d) in *. set (H := shape0 data_2d) in *.
  set (above := fun cr : Z * Z =>
                  negb (Qle_bool (getitem 0%Q data_2d (snd cr) (fst cr)) amp_min)).
  set (flat := fun cr : Z * Z => Z.to_nat (snd cr * Z.of_nat W + fst cr)).
  unfold count_gt.
  rewrite <- (filter_seq_nth (fun x => Qlt_bool amp_min x) 0%Q (buf data_2d) 0).
  rewrite <- (length_map flat).
  apply NoDup_incl_length.
  - apply NoDup_ListNoDup, NoDup_map_on.
    + intros [c r] [c' r'] Hx Hy. apply filter_In in Hx as [Hx _]. apply filter_In in Hy as [Hy _].
      apply in_ndindex in Hx, Hy. unfold flat. simpl. intros Heq.
      assert (r * Z.of_nat W + c = r' * Z.of_nat W + c')%Z as Heq' by nia.
      assert (r = r') by nia. subst. f_equal. lia.
    + apply NoDup_ListNoDup, List.NoDup_filter, NoDup_ListNoDup, ndindex_NoDup.
  - intros i Hi. apply in_map_iff in Hi as ([c r] & <- & Hin).
    apply filter_In in Hin as [Hin Habove]. apply in_ndindex in Hin.
    apply filter_In. unfold flat. simpl. split.
    + apply in_seq. rewrite Hwf. nia.
    + rewrite Nat.sub_0_r. unfold above, getitem in Habove. simpl in Habove.
      fold W in Habove. unfold Qlt_bool. done.
Qed.

Lemma count_gt_le_total (v : Q) (l : list Q) :
  (count_gt v l + count_le v l = length l)%nat.
Proof.
  unfold count_gt, count_le, Qlt_bool. induction l as [|a l IH]; simpl; [done|].
  destruct (Qle_bool a v); simpl; lia.
Qed.

Lemma peaks_length_above (data_2d : ndarray Q) (ro co : list Z) (amp_min : Q) :
  well_formed data_2d ->
  (length (_peaks data_2d ro co amp_min) <= count_gt amp_min (buf data_2d))%nat.
Proof.
  intros Hwf. rewrite peaks_filter, length_map.
  etransitivity; [|by apply cells_above_bound].
  apply filter_length_mono. intros cr _ Hp. unfold is_peak in Hp.
  by apply andb_true_iff in Hp as [Hp _].
Qed.

(** [X11] For an array whose buffer holds one value per cell, [_peaks]
    returns at most as many peaks as there are values above the cutoff; when
    no value is above the cutoff it returns no peak. *)
Theorem peaks_count_bound (data_2d : ndarray Q)
    (nbrhd_row_offsets nbrhd_col_offsets : list Z) (amp_min : Q) :
  well_formed data_2d ->
  (length (_peaks data_2d nbrhd_row_offsets nbrhd_col_offsets amp_min)
   <= count_gt amp_min (ravel data_2d))%nat /\
  (count_gt amp_min (ravel data_2d) = 0%nat ->
   _peaks data_2d nbrhd_row_offsets nbrhd_col_offsets amp_min = []).
Proof.
  intros Hwf.
  pose proof (peaks_length_above data_2d nbrhd_row_offsets nbrhd_col_offsets amp_min Hwf)
    as Hle.
  split; [exact Hle|]. intros Hzero. unfold ravel in Hzero. rewrite Hzero in Hle.
  destruct (_peaks data_2d nbrhd_row_offsets nbrhd_col_offsets amp_min); [done|].
  simpl in Hle. lia.
Qed.

Lemma peaks_count_bound_witness :
  (length (_peaks ridge_example [0; 0; 0]%Z [-1; 0; 1]%Z (3 # 1))
   <= count_gt (3 # 1) (ravel ridge_example))%nat.
Proof. apply (peaks_count_bound ridge_example). reflexivity. Defined.

(** [X13] The outcomes of [extract_local_peak_idxs] for a percentile that
    is not negative, [idx] being the selection index the code computes for
    the n cells of the spectrogram.  The cutoff is computed first, so that
    the first two outcomes hold whatever the mask is.  For an empty
    spectrogram it raises [IndexError]: [np.partition] returns the empty
    array and the indexing fails.  For a spectrogram that is not empty and
    [idx] not below n it raises [ValueError].  For [idx] below n and a mask
    with odd dimensions it returns a peak list; the cutoff is then a value
    of the spectrogram and, the buffer holding one value per cell, there are
    at most [n - 1 - idx] peaks. *)
Theorem extract_local_peak_idxs_outcome (cfg : configs) (spectrogram : ndarray Q)
    (idx : Z) :
  SFleb (S754_zero false) (amp_threshold_pct cfg) = true ->
  cutoff_index cfg (length (ravel spectrogram)) = Return idx ->
  (ravel spectrogram = [] ->
   _find_cutoff cfg spectrogram = Raise IndexError /\
   extract_local_peak_idxs cfg spectrogram = Raise IndexError) /\
  (ravel spectrogram <> [] ->
   (Z.of_nat (length (ravel spectrogram)) <= idx)%Z ->
   _find_cutoff cfg spectrogram = Raise ValueError /\
   extract_local_peak_idxs cfg spectrogram = Raise ValueError) /\
  ((idx < Z.of_nat (length (ravel spectrogram)))%Z ->
   Nat.Odd (shape0 (neighborhood cfg)) -> Nat.Odd (shape1 (neighborhood cfg)) ->
   exists cutoff peaks,
     _find_cutoff cfg spectrogram = Return cutoff /\
     extract_local_peak_idxs cfg spectrogram = Return peaks /\
     In cutoff (ravel spectrogram) /\
     (well_formed spectrogram ->
      (Z.of_nat (length peaks)
       <= Z.of_nat (length (ravel spectrogram)) - 1 - idx)%Z)).
Proof.
  intros Hp Hci.
  pose proof (cutoff_index_nonneg cfg _ idx Hp Hci) as Hidx0.
  set (data := ravel spectrogram) in *.
  assert (Hraise : forall e, _find_cutoff cfg spectrogram = Raise e ->
                             extract_local_peak_idxs cfg spectrogram = Raise e).
  { intros e Hcut. unfold extract_local_peak_idxs. by rewrite Hcut. }
  split; [|split].
  - intros Hnil.
    assert (_find_cutoff cfg spectrogram = Raise IndexError) as Hcut.
    { unfold _find_cutoff. fold data. rewrite Hci, Hnil.
      cbn [mbind outcome_bind]. unfold np_partition.
      cbn [length Nat.eqb mbind outcome_bind]. unfold py_getitem.
      replace (0 <=? idx)%Z with true by lia.
      by destruct (Z.to_nat idx). }
    split; [done|]. by apply Hraise.
  - intros Hne Hge.
    assert (_find_cutoff cfg spectrogram = Raise ValueError) as Hcut.
    { unfold _find_cutoff. fold data. rewrite Hci.
      cbn [mbind outcome_bind]. unfold np_partition.
      replace (Nat.eqb (length data) 0) with false.
      2:{ symmetry. apply Nat.eqb_neq. by destruct data. }
      replace (idx <? 0)%Z with false by lia.
      replace ((0 <=? idx)%Z && (idx <? Z.of_nat (length data))%Z)%bool with false by lia.
      done. }
    split; [done|]. by apply Hraise.
  - intros Hlt Ho0%mod2_odd Ho1%mod2_odd.
    destruct (find_cutoff_returns cfg spectrogram idx Hci) as (v & Hv & Hin & Hrank);
      [fold data; lia|].
    fold data in Hin, Hrank.
    assert (Hext : extract_local_peak_idxs cfg spectrogram =
                   _local_peak_locations spectrogram (neighborhood cfg) v).
    { unfold extract_local_peak_idxs. by rewrite Hv. }
    rewrite Hext, local_peak_locations_unfold, Ho0, Ho1. cbn [andb].
    eexists v, _. split; [done|]. split; [reflexivity|].
    split; [done|]. intros Hwf.
    pose proof (peaks_length_above spectrogram (map fst (mask_offsets (neighborhood cfg)))
                  (map snd (mask_offsets (neighborhood cfg))) v Hwf) as Hbound.
    pose proof (count_gt_le_total v data) as Htot. fold data in Hbound.
    unfold data, ravel in *. lia.
Qed.

Lemma extract_local_peak_idxs_outcome_witness :
  exists cutoff peaks,
    _find_cutoff ridge_cfg ridge_example = Return cutoff /\
    extract_local_peak_idxs ridge_cfg ridge_example = Return peaks /\
    In cutoff (ravel ridge_example) /\
    (well_formed ridge_example ->
     (Z.of_nat (length peaks)
      <= Z.of_nat (length (ravel ridge_example)) - 1 - 3)%Z).
Proof.
  assert (SFleb (S754_zero false) (amp_threshold_pct ridge_cfg) = true) as Hp
    by (vm_compute; reflexivity).
  assert (cutoff_index ridge_cfg (length (ravel ridge_example)) = Return 3%Z) as Hci
    by (vm_compute; reflexivity).
  destruct (extract_local_peak_idxs_outcome ridge_cfg ridge_example 3 Hp Hci)
    as (_ & _ & Hok).
  apply Hok.
  - vm_compute. reflexivity.
  - exists 1%nat. reflexivity.
  - exists 1%nat. reflexivity.
Defined.

Example ridge_extract :
  extract_local_peak_idxs ridge_cfg ridge_example = Return [(0, 1); (1, 2)]%Z.
Proof. vm_compute. reflexivity. Qed.

Lemma entry_peaks_pair_entry ab : entry_peaks (pair_entry ab) = ab.
Proof.
  destruct ab as [[fm tm] [fn tn]]. unfold pair_entry, entry_peaks, _form_pair_encoding.
  simpl. do 2 f_equal. lia.
Qed.

Lemma form_fingerprints_cons (cfg : configs) (p : Z * Z) (ps : list (Z * Z)) :
  (1 <= fanout_size cfg)%Z ->
  form_fingerprints cfg (p :: ps) =
    map (fun q => (_form_pair_encoding p q, snd p)) (take (Z.to_nat (fanout_size cfg)) ps)
    :: form_fingerprints cfg ps.
Proof.
  intros Hf. unfold form_fingerprints. rewrite imap_cons. f_equal.
  - by rewrite fanout_group_forward.
  - apply imap_ext. intros i x _. simpl. by rewrite !fanout_group_forward.
Qed.

Lemma form_fingerprints_entries (cfg : configs) (peaks : list (Z * Z)) :
  (1 <= fanout_size cfg)%Z ->
  concat (form_fingerprints cfg peaks) =
    map pair_entry (fanout_pairs (Z.to_nat (fanout_size cfg)) peaks).
Proof.
  intros Hf. induction peaks as [|p ps IH]; [done|].
  rewrite form_fingerprints_cons by done. simpl.
  rewrite map_app, map_map, IH. done.
Qed.

Lemma in_fanout_pairs fanout peaks a b :
  In (a, b) (fanout_pairs fanout peaks) -> In a peaks /\ In b peaks.
Proof.
  induction peaks as [|p ps IH]; simpl; [done|].
  intros [Hin|Hin]%in_app_or.
  - apply in_map_iff in Hin as (q & [= <- <-] & Hq). split; [by left|right].
    apply list_elem_of_In. apply list_elem_of_In in Hq.
    by apply (subseteq_take fanout ps).
  - apply IH in Hin. tauto.
Qed.

Lemma fanout_pairs_NoDup fanout peaks : NoDup peaks -> NoDup (fanout_pairs fanout peaks).
Proof.
  induction 1 as [|p ps Hp Hnd IH]; simpl; [constructor|].
  apply NoDup_app. split; [|split; [|done]].
  - apply NoDup_fmap_2; [intros x y [=]; done|].
    apply (sublist_NoDup _ ps); [done|apply sublist_take].
  - intros [a b] Hin%list_elem_of_In Hin'%list_elem_of_In.
    apply in_map_iff in Hin as (q & [= <- <-] & _).
    apply in_fanout_pairs in Hin' as [Ha _]. apply Hp. by apply list_elem_of_In.
Qed.

Lemma fanout_pairs_length fanout peaks :
  (2 * Z.of_nat (length (fanout_pairs fanout peaks)) =
   if (Z.of_nat (length peaks) <=? Z.of_nat fanout)%Z
   then Z.of_nat (length peaks) * (Z.of_nat (length peaks) - 1)
   else Z.of_nat fanout * (2 * Z.of_nat (length peaks) - Z.of_nat fanout - 1))%Z.
Proof.
  induction peaks as [|p ps IH]; cbn [fanout_pairs length].
  - destruct (Z.leb_spec (Z.of_nat 0) (Z.of_nat fanout)); lia.
  - rewrite length_app, length_map, length_take.
    destruct (Z.leb_spec (Z.of_nat (length ps)) (Z.of_nat fanout));
      destruct (Z.leb_spec (Z.of_nat (S (length ps))) (Z.of_nat fanout)); nia.
Qed.

Lemma form_fingerprints_nodup (cfg : configs) (peaks : list (Z * Z)) :
  (1 <= fanout_size cfg)%Z -> NoDup peaks -> NoDup (concat (form_fingerprints cfg peaks)).
Proof.
  intros Hf Hnd. rewrite form_fingerprints_entries by done.
  apply NoDup_fmap_2_strong; [|by apply fanout_pairs_NoDup].
  intros x y _ _ Heq. rewrite <- (entry_peaks_pair_entry x), <- (entry_peaks_pair_entry y).
  by rewrite Heq.
Qed.

(** [X14] The number of entries [form_fingerprints] produces for N
    peaks and [fanout_size = f >= 1] is [N (N - 1) / 2] when [N <= f] and
    [f (2 N - f - 1) / 2] otherwise; it is at most [f * N], and a list of at
    most one peak produces no entry. *)
Theorem form_fingerprints_entry_count (cfg : configs) (peaks : list (Z * Z)) :
  (1 <= fanout_size cfg)%Z ->
  (2 * Z.of_nat (length (concat (form_fingerprints cfg peaks))) =
   if (Z.of_nat (length peaks) <=? fanout_size cfg)%Z
   then Z.of_nat (length peaks) * (Z.of_nat (length peaks) - 1)
   else fanout_size cfg * (2 * Z.of_nat (length peaks) - fanout_size cfg - 1))%Z /\
  (Z.of_nat (length (concat (form_fingerprints cfg peaks)))
   <= fanout_size cfg * Z.of_nat (length peaks))%Z /\
  ((length peaks <= 1)%nat -> concat (form_fingerprints cfg peaks) = []).
Proof.
  intros Hf. rewrite form_fingerprints_entries by done. rewrite length_map.
  pose proof (fanout_pairs_length (Z.to_nat (fanout_size cfg)) peaks) as Hlen.
  rewrite Z2Nat.id in Hlen by lia.
  split; [exact Hlen|]. split.
  - destruct (Z.of_nat (length peaks) <=? fanout_size cfg)%Z eqn:E; nia.
  - intros Hshort.
    destruct (fanout_pairs (Z.to_nat (fanout_size cfg)) peaks) eqn:Hp; [done|].
    simpl length in Hlen.
    destruct (Z.of_nat (length peaks) <=? fanout_size cfg)%Z eqn:E; nia.
Qed.

Lemma form_fingerprints_entry_count_witness :
  (2 * Z.of_nat (length (concat (form_fingerprints example_cfg example_peaks))) =
   if (Z.of_nat (length example_peaks) <=? fanout_size example_cfg)%Z
   then Z.of_nat (length example_peaks) * (Z.of_nat (length example_peaks) - 1)
   else fanout_size example_cfg
        * (2 * Z.of_nat (length example_peaks) - fanout_size example_cfg - 1))%Z.
Proof.
  apply (form_fingerprints_entry_count example_cfg example_peaks). simpl. lia.
Defined.

(** [X15] An entry determines the two peaks it was made from: the
    anchor is (first frequency, anchor time) and the partner is (second
    frequency, anchor time + time difference), found at the anchor index and
    at the partner index of the peak list.  Hence a peak list without
    repeated peaks yields pairwise distinct entries. *)
Theorem form_fingerprints_lossless (cfg : configs) (peaks : list (Z * Z)) :
  (1 <= fanout_size cfg)%Z ->
  (forall i group k e,
      form_fingerprints cfg peaks !! i = Some group -> group !! k = Some e ->
      peaks !! i = Some (fst (entry_peaks e)) /\
      peaks !! (i + 1 + k)%nat = Some (snd (entry_peaks e))) /\
  (NoDup peaks -> NoDup (concat (form_fingerprints cfg peaks))).
Proof.
  intros Hf. split; [|by apply form_fingerprints_nodup].
  intros i group k e Hgroup Hentry.
  unfold form_fingerprints in Hgroup. rewrite list_lookup_imap in Hgroup.
  destruct (peaks !! i) as [anchor|] eqn:Hanchor; simpl in Hgroup; [|done].
  injection Hgroup as <-.
  rewrite fanout_group_forward in Hentry by done.
  rewrite list_lookup_fmap in Hentry.
  destruct (take _ _ !! k) as [partner|] eqn:Hpartner; simpl in Hentry; [|done].
  injection Hentry as <-.
  apply lookup_take_Some in Hpartner as [Hpartner _].
  rewrite lookup_drop in Hpartner.
  replace (S i + k)%nat with (i + 1 + k)%nat in Hpartner by lia.
  change (_form_pair_encoding anchor partner, snd anchor)
    with (pair_entry (anchor, partner)).
  rewrite entry_peaks_pair_entry. done.
Qed.

Lemma form_fingerprints_lossless_witness :
  NoDup (concat (form_fingerprints example_cfg example_peaks)).
Proof.
  apply (form_fingerprints_lossless example_cfg example_peaks).
  - simpl. lia.
  - apply (bool_decide_unpack _). vm_compute. exact I.
Defined.

Lemma subset_query_core (stored query : list (list (Z * Z * Z * Z))) (songID : Z)
    (songIDs : list (string * string)) :
  NoDup (concat stored) ->
  concat query <> [] ->
  (forall e, In e (concat query) -> In e (concat stored)) ->
  py_max (fun v => v)
         (map snd (fst (query_tallies query (store_fingerprint stored songID ∅)))) =
    Return (Z.of_nat (length (concat query))) /\
  (exists offset,
      py_max (tallies_get (fst (query_tallies query (store_fingerprint stored songID ∅))))
             (map fst (fst (query_tallies query (store_fingerprint stored songID ∅)))) =
        Return (songID, offset)) /\
  fst (query_database query (store_fingerprint stored songID ∅) songIDs) =
    match py_getitem songIDs songID with
    | Some info => Return (match_message info)
    | None => Raise IndexError
    end.
Proof.
  intros Hnd Hne Hsub.
  set (db := store_fingerprint stored songID ∅).
  set (es := concat stored) in *.
  assert (Hdb : forall k, lookup_entries db k = entries_for songID k es).
  { intros k. apply store_fingerprint_entries. }
  set (hits := query_hits query db).
  assert (Haligned : votes (songID, 0%Z) hits = Z.of_nat (length (concat query))).
  { apply (votes_aligned songID es db Hdb Hnd).
    intros e He%list_elem_of_In. by apply list_elem_of_In, Hsub. }
  assert (Hpos : (1 <= Z.of_nat (length (concat query)))%Z).
  { destruct (concat query); [done|]. simpl. lia. }
  assert (Hin0 : (songID, 0%Z) ∈ hits).
  { destruct (decide ((songID, 0%Z) ∈ hits)) as [?|Hnin]; [done|].
    rewrite (votes_zero _ _ Hnin) in Haligned. lia. }
  destruct (py_max_nonempty (fun k => votes k hits) (first_occurrences hits)) as [w Hmax].
  { apply first_occurrences_nonempty. intros Hnil. rewrite Hnil in Hin0.
    by apply elem_of_nil in Hin0. }
  pose proof (py_max_first_max _ _ _ Hmax) as Hfirst.
  assert (Hw : w ∈ hits).
  { apply first_max_in, list_elem_of_In in Hfirst.
    apply first_occurrences_from_elem in Hfirst as [Hin|Hin]; [|done].
    by apply elem_of_nil in Hin. }
  assert (Hvotes : votes w hits = Z.of_nat (length (concat query))).
  { apply Z.le_antisymm.
    - apply (votes_bound songID es db Hdb Hnd).
    - rewrite <- Haligned. apply (first_max_ge _ _ _ _ Hfirst).
      apply list_elem_of_In, first_occurrences_from_elem. by right. }
  assert (Hsong : fst w = songID) by (by apply (hits_song songID es db Hdb (concat query))).
  split; [|split].
  - rewrite query_tallies_values. fold hits.
    rewrite (py_max_map _ _ _ Hmax). by rewrite Hvotes.
  - exists (snd w). rewrite query_winner_spec. fold hits. rewrite Hmax.
    destruct w. simpl in *. by subst.
  - rewrite query_database_unfold. cbn [fst]. rewrite query_decision_spec. fold hits.
    by rewrite Hmax, Hsong.
Qed.

(** [X6] A song is recognised from any part of its fingerprint.  If the
    store holds one song whose entries are pairwise distinct, and every entry
    of a non-empty query is one of them, the winning count is the number of
    query entries, the winning key belongs to that song and
    [query_database] returns the message for the catalog entry of the song
    ([IndexError] if the catalog has none). *)
Theorem partial_query_identifies (stored query : list (list (Z * Z * Z * Z))) (songID : Z)
    (songIDs : list (string * string)) :
  NoDup (concat stored) ->
  concat query <> [] ->
  (forall e, In e (concat query) -> In e (concat stored)) ->
  py_max (fun v => v)
         (map snd (fst (query_tallies query (store_fingerprint stored songID ∅)))) =
    Return (Z.of_nat (length (concat query))) /\
  (exists offset,
      py_max (tallies_get (fst (query_tallies query (store_fingerprint stored songID ∅))))
             (map fst (fst (query_tallies query (store_fingerprint stored songID ∅)))) =
        Return (songID, offset)) /\
  fst (query_database query (store_fingerprint stored songID ∅) songIDs) =
    match py_getitem songIDs songID with
    | Some info => Return (match_message info)
    | None => Raise IndexError
    end.
Proof. apply subset_query_core. Qed.

Lemma partial_query_identifies_witness :
  fst (query_database [[((2, 1, 2), 0)%Z]] (store_fingerprint example_groups 0 ∅) one_song) =
    match py_getitem one_song 0 with
    | Some info => Return (match_message info)
    | None => Raise IndexError
    end.
Proof.
  apply (partial_query_identifies example_groups [[((2, 1, 2), 0)%Z]] 0 one_song).
  - apply (bool_decide_unpack _). vm_compute. exact I.
  - discriminate.
  - intros e [<-|[]]. vm_compute. tauto.
Defined.

(** [X16] The pipeline end to end.  The peaks [_peaks] finds in any
    array, when there are at least two, encoded by [form_fingerprints] with
    [fanout_size >= 1] and stored under a song into an empty store, are
    recognised: the query with the same groups returns the message for the
    catalog entry of that song ([IndexError] if the catalog has none), with
    a winning count equal to the number of entries. *)
Theorem recording_round_trip (cfg : configs) (data_2d : ndarray Q)
    (nbrhd_row_offsets nbrhd_col_offsets : list Z) (amp_min : Q) (songID : Z)
    (songIDs : list (string * string)) :
  (1 <= fanout_size cfg)%Z ->
  (2 <= length (_peaks data_2d nbrhd_row_offsets nbrhd_col_offsets amp_min))%nat ->
  fst (query_database
         (form_fingerprints cfg (_peaks data_2d nbrhd_row_offsets nbrhd_col_offsets amp_min))
         (store_fingerprint
            (form_fingerprints cfg
               (_peaks data_2d nbrhd_row_offsets nbrhd_col_offsets amp_min)) songID ∅)
         songIDs) =
    match py_getitem songIDs songID with
    | Some info => Return (match_message info)
    | None => Raise IndexError
    end /\
  py_max (fun v => v)
         (map snd (fst (query_tallies
            (form_fingerprints cfg
               (_peaks data_2d nbrhd_row_offsets nbrhd_col_offsets amp_min))
            (store_fingerprint
               (form_fingerprints cfg
                  (_peaks data_2d nbrhd_row_offsets nbrhd_col_offsets amp_min))
               songID ∅)))) =
    Return (Z.of_nat (length (concat (form_fingerprints cfg
              (_peaks data_2d nbrhd_row_offsets nbrhd_col_offsets amp_min))))).
Proof.
  intros Hf Hlen.
  set (peaks := _peaks data_2d nbrhd_row_offsets nbrhd_col_offsets amp_min) in *.
  destruct (subset_query_core (form_fingerprints cfg peaks) (form_fingerprints cfg peaks)
              songID songIDs) as (Hmax & _ & Hres); [| |done|by split].
  - apply form_fingerprints_nodup; [done|apply peaks_nodup].
  - rewrite form_fingerprints_entries by done.
    destruct peaks as [|p [|q rest]]; simpl in Hlen; [lia|lia|].
    cbn [fanout_pairs]. destruct (Z.to_nat (fanout_size cfg)) eqn:Hn; [lia|].
    simpl. discriminate.
Qed.

Lemma recording_round_trip_witness :
  fst (query_database
         (form_fingerprints ridge_cfg (_peaks ridge_example [0; 0; 0]%Z [-1; 0; 1]%Z (3 # 1)))
         (store_fingerprint
            (form_fingerprints ridge_cfg
               (_peaks ridge_example [0; 0; 0]%Z [-1; 0; 1]%Z (3 # 1))) 0 ∅)
         one_song) =
    match py_getitem one_song 0 with
    | Some info => Return (match_message info)
    | None => Raise IndexError
    end.
Proof.
  apply (recording_round_trip ridge_cfg ridge_example [0; 0; 0]%Z [-1; 0; 1]%Z (3 # 1) 0 one_song).
  - simpl. lia.
  - vm_compute. lia.
Defined.

Lemma bind_Return {A B : Type} (a : A) (k : A -> outcome B) : mbind k (Return a) = k a.
Proof. reflexivity. Qed.

Lemma bind_Raise {A B : Type} (e : exn) (k : A -> outcome B) : mbind k (Raise e) = Raise e.
Proof. reflexivity. Qed.

Lemma random_samples_clip (samples : list Q) (spc : nat) (raw : Z) :
  (spc <= length samples)%nat ->
  exists start : nat,
    (start + spc <= length samples)%nat /\
    (start' ← randint 0 (Z.of_nat (length samples) - Z.of_nat spc) raw;
     assign_row spc (py_slice samples start' (start' + Z.of_nat spc))) =
      Return (take spc (drop start samples)).
Proof.
  intros Hspc. unfold randint.
  replace (0 <=? Z.of_nat (length samples) - Z.of_nat spc)%Z with true by lia.
  rewrite bind_Return.
  set (start := (0 + raw `mod` (Z.of_nat (length samples) - Z.of_nat spc - 0 + 1))%Z).
  assert (0 <= start <= Z.of_nat (length samples) - Z.of_nat spc)%Z as Hstart.
  { unfold start.
    pose proof (Z.mod_pos_bound raw (Z.of_nat (length samples) - Z.of_nat spc - 0 + 1)).
    lia. }
  exists (Z.to_nat start). split; [lia|].
  rewrite py_slice_forward by lia.
  replace (Z.to_nat (start + Z.of_nat spc - start)) with spc by lia.
  unfold assign_row.
  replace (Nat.eqb (length (take spc (drop (Z.to_nat start) samples))) spc) with true.
  2:{ symmetry. apply Nat.eqb_eq. rewrite length_take, length_drop. lia. }
  done.
Qed.

Lemma random_samples_loop (entropy : nat -> Z) (samples : list Q) (spc : nat) :
  (spc <= length samples)%nat ->
  forall (k : nat) (result : list (list Q)) (done_ : nat),
    length result = (done_ + k)%nat ->
    (forall j clip, (j < done_)%nat -> result !! j = Some clip -> is_window samples spc clip) ->
    exists result',
      outcome_fold
        (fun result i =>
           start ← randint 0 (Z.of_nat (length samples) - Z.of_nat spc) (entropy i);
           row ← assign_row spc (py_slice samples start (start + Z.of_nat spc));
           Return (<[i := row]> result))
        (seq done_ k) result = Return result' /\
      length result' = (done_ + k)%nat /\
      (forall j clip, (j < done_ + k)%nat -> result' !! j = Some clip ->
                      is_window samples spc clip).
Proof.
  intros Hspc. induction k as [|k IH]; intros result done_ Hlen Hinv.
  - exists result. simpl. split; [done|]. split; [done|].
    intros j clip Hj. apply Hinv. lia.
  - cbn [seq outcome_fold].
    destruct (random_samples_clip samples spc (entropy done_) Hspc) as (start & Hstart & Hclip).
    assert (forall (k' : list Q -> outcome (list (list Q))),
              (start' ← randint 0 (Z.of_nat (length samples) - Z.of_nat spc) (entropy done_);
               row ← assign_row spc (py_slice samples start' (start' + Z.of_nat spc));
               k' row) = k' (take spc (drop start samples))) as Hstep.
    { intros k'. revert Hclip.
      destruct (randint 0 _ _) as [s0|]; [|discriminate]. rewrite !bind_Return.
      intros ->. by rewrite bind_Return. }
    rewrite Hstep, bind_Return.
    destruct (IH (<[done_ := take spc (drop start samples)]> result) (S done_))
      as (result' & Hrun & Hlen' & Hinv').
    + rewrite length_insert. lia.
    + intros j clip Hj Hc.
      destruct (decide (j = done_)) as [->|Hne].
      * rewrite list_lookup_insert_eq in Hc by lia. injection Hc as <-.
        exists start. done.
      * rewrite list_lookup_insert_ne in Hc by done. apply (Hinv j); [lia|done].
    + exists result'. split; [exact Hrun|]. split; [lia|].
      intros j clip Hj. apply Hinv'. lia.
Qed.

(** [X17] Let [spc] be the clip length in samples the code computes,
    [int (clip_length * freq)]: the exact product for an integer length,
    the truncated binary64 product for a float.  When [n >= 0] and [spc] is
    between 0 and the length of the recording, [random_samples] returns
    exactly [n] clips, whatever the generator supplies, and every clip
    consists of [spc] consecutive samples of the recording. *)
Theorem random_samples_windows (entropy : nat -> Z) (samples : list Q) (freq n : Z)
    (clip_length : pynumber) (spc : Z) :
  clip_size clip_length freq = Return spc ->
  (0 <= n)%Z ->
  (0 <= spc <= Z.of_nat (length samples))%Z ->
  exists clips,
    random_samples entropy samples freq n clip_length = Return clips /\
    length clips = Z.to_nat n /\
    Forall (is_window samples (Z.to_nat spc)) clips.
Proof.
  intros Hsize Hn Hspc. unfold random_samples. rewrite Hsize, bind_Return.
  replace ((n <? 0)%Z || (spc <? 0)%Z)%bool with false by lia.
  destruct (random_samples_loop entropy samples (Z.to_nat spc)) with
    (k := Z.to_nat n) (done_ := 0%nat)
    (result := replicate (Z.to_nat n) (replicate (Z.to_nat spc) 0%Q))
    as (clips & Hrun & Hlen & Hwin).
  - lia.
  - by rewrite length_replicate.
  - intros j clip Hj. lia.
  - exists clips. rewrite Z2Nat.id in Hrun by lia. split; [exact Hrun|].
    split; [done|]. apply List.Forall_forall. intros clip Hin.
    apply list_elem_of_In, list_elem_of_lookup in Hin as [j Hj].
    apply (Hwin j); [|done]. apply lookup_lt_Some in Hj. lia.
Qed.

Lemma random_samples_windows_witness :
  exists clips,
    random_samples (fun i => Z.of_nat i) tone 2 3 (PyFloat (float_literal 3 2))
      = Return clips /\
    length clips = Z.to_nat 3 /\
    Forall (is_window tone (Z.to_nat 3)) clips.
Proof.
  apply (random_samples_windows (fun i => Z.of_nat i) tone 2 3 (PyFloat (float_literal 3 2)) 3).
  - vm_compute. reflexivity.
  - lia.
  - vm_compute. split; discriminate.
Defined.

(** [X18] Let [spc] be the clip length in samples the code computes,
    [int (clip_length * freq)].  When at least one clip is asked for and
    the recording has fewer than [spc] samples, [random_samples] raises
    [ValueError] ([random.randint] on an empty range), whatever the
    generator supplies. *)
Theorem random_samples_too_short (entropy : nat -> Z) (samples : list Q) (freq n : Z)
    (clip_length : pynumber) (spc : Z) :
  clip_size clip_length freq = Return spc ->
  (1 <= n)%Z ->
  (Z.of_nat (length samples) < spc)%Z ->
  random_samples entropy samples freq n clip_length = Raise ValueError.
Proof.
  intros Hsize Hn Hshort. unfold random_samples. rewrite Hsize, bind_Return.
  replace ((n <? 0)%Z || (spc <? 0)%Z)%bool with false by lia.
  destruct (Z.to_nat n) as [|k] eqn:Hk; [lia|].
  cbn [seq outcome_fold]. unfold randint.
  replace (0 <=? Z.of_nat (length samples) - spc)%Z with false by lia.
  done.
Qed.

Lemma random_samples_too_short_witness :
  random_samples (fun i => Z.of_nat i) tone 4 1 (PyFloat (float_literal 3 2))
    = Raise ValueError.
Proof.
  apply (random_samples_too_short (fun i => Z.of_nat i) tone 4 1
           (PyFloat (float_literal 3 2)) 6).
  - vm_compute. reflexivity.
  - lia.
  - vm_compute. reflexivity.
Defined.

(** The clip length in samples is taken from the binary64 product: 0.3 s at
    44100 Hz is 13230 samples and 0.6 s at 5 Hz is 3 samples, although both
    exact products of the floats are below these integers; the integer
    length 5 that [populate_database] passes gives the exact product. *)
Example clip_size_float_product :
  clip_size (PyFloat (float_literal 3 10)) 44100 = Return 13230%Z /\
  (float_value (float_literal 3 10) * inject_Z 44100 < inject_Z 13230)%Q /\
  clip_size (PyFloat (float_literal 6 10)) 5 = Return 3%Z /\
  (float_value (float_literal 6 10) * inject_Z 5 < inject_Z 3)%Q /\
  clip_size (PyInt 5) 44100 = Return 220500%Z.
Proof. repeat split; vm_compute; reflexivity. Qed.

Lemma store_fingerprint_extends fingerprints songID database key :
  lookup_entries (store_fingerprint fingerprints songID database) key =
    lookup_entries database key ++ entries_for songID key (concat fingerprints).
Proof.
  unfold lookup_entries at 1. rewrite store_fingerprint_lookup.
  case_decide as Hk; [done|].
  rewrite (entries_for_absent _ _ _ Hk), app_nil_r. done.
Qed.

Lemma in_entries_for songID key es sid ts :
  In (sid, ts) (entries_for songID key es) -> sid = songID.
Proof.
  unfold entries_for. intros Hin. apply in_map_iff in Hin as (e & [= <- _] & _). done.
Qed.

Lemma songs_below_store m fingerprints i database :
  (i < m)%nat -> songs_below m database ->
  songs_below m (store_fingerprint fingerprints (Z.of_nat i) database).
Proof.
  intros Hi Hdb key sid ts Hin. rewrite store_fingerprint_extends in Hin.
  apply in_app_or in Hin as [Hin|Hin]; [by eapply Hdb|].
  apply in_entries_for in Hin. lia.
Qed.

Lemma songs_below_mono m m' database :
  (m <= m')%nat -> songs_below m database -> songs_below m' database.
Proof. intros Hle Hdb key sid ts Hin. specialize (Hdb key sid ts Hin). lia. Qed.

Lemma copies_app x l1 l2 : copies x (l1 ++ l2) = (copies x l1 + copies x l2)%nat.
Proof. unfold copies. by rewrite List.filter_app, length_app. Qed.

Lemma populate_clip_unfold env cfg audio rate i database (sample : list Q) :
  populate_clip env cfg audio rate i database sample =
    match produce_spectrogram env audio rate with
    | Return (spectrogram, _, _) =>
        match extract_local_peak_idxs cfg spectrogram with
        | Return peaks =>
            Return (store_fingerprint (form_fingerprints cfg peaks) (Z.of_nat i) database)
        | Raise e => Raise e
        end
    | Raise e => Raise e
    end.
Proof.
  unfold populate_clip.
  destruct (produce_spectrogram env audio rate) as [[[spectrogram freqs] times]|]; [|done].
  rewrite bind_Return.
  destruct (extract_local_peak_idxs cfg spectrogram); done.
Qed.

Lemma populate_clips_spec env cfg audio rate i (samples : list (list Q)) database database' :
  outcome_fold (populate_clip env cfg audio rate i) samples database = Return database' ->
  samples = [] /\ database' = database \/
  exists fingerprints,
    database' = Nat.iter (length samples)
                  (store_fingerprint fingerprints (Z.of_nat i)) database.
Proof.
  intros Hrun.
  destruct (produce_spectrogram env audio rate) as [[[spectrogram freqs] times]|] eqn:Hspec.
  2:{ left. destruct samples as [|s0 samples]; [by injection Hrun as <-|].
      simpl in Hrun. rewrite populate_clip_unfold, Hspec in Hrun. done. }
  destruct (extract_local_peak_idxs cfg spectrogram) as [peaks|] eqn:Hpeaks.
  2:{ left. destruct samples as [|s0 samples]; [by injection Hrun as <-|].
      simpl in Hrun. rewrite populate_clip_unfold, Hspec, Hpeaks in Hrun. done. }
  right. exists (form_fingerprints cfg peaks). revert database Hrun.
  induction samples as [|s l IH]; intros database; simpl.
  - by intros [= <-].
  - rewrite populate_clip_unfold, Hspec, Hpeaks, bind_Return. intros Hrun.
    apply IH in Hrun. rewrite Hrun. clear.
    induction (length l) as [|n IHn]; simpl; [done|]. by rewrite IHn.
Qed.

Lemma iter_store_entries n fingerprints songID database key :
  lookup_entries (Nat.iter n (store_fingerprint fingerprints songID) database) key =
    lookup_entries database key ++
    concat (replicate n (entries_for songID key (concat fingerprints))).
Proof.
  induction n as [|n IH]; simpl; [by rewrite app_nil_r|].
  rewrite store_fingerprint_extends, IH, <- app_assoc. f_equal.
  clear. induction n as [|n IH]; simpl; [by rewrite app_nil_r|].
  rewrite <- app_assoc. by rewrite IH.
Qed.

Lemma copies_concat_replicate x n l :
  copies x (concat (replicate n l)) = (n * copies x l)%nat.
Proof. induction n as [|n IH]; simpl; [done|]. rewrite copies_app, IH. lia. Qed.

Lemma outcome_fold_invariant {A S : Type} (P : S -> Prop) (body : S -> A -> outcome S)
    (l : list A) (s s' : S) :
  (forall s a s', In a l -> body s a = Return s' -> P s -> P s') ->
  outcome_fold body l s = Return s' -> P s -> P s'.
Proof.
  revert s. induction l as [|a l IH]; intros s Hbody; simpl.
  - by intros [= <-].
  - destruct (body s a) as [s1|] eqn:Hs1; [|done]. rewrite bind_Return.
    intros Hrun Hs. apply (IH s1); [|done|].
    + intros s2 a2 s2' Ha2. apply Hbody. by right.
    + apply (Hbody s a); [by left|done|done].
Qed.

Lemma random_samples_length entropy samples freq n clip_length clips :
  random_samples entropy samples freq n clip_length = Return clips ->
  length clips = Z.to_nat n.
Proof.
  unfold random_samples. destruct (clip_size _ _) as [spc|]; [|done].
  rewrite bind_Return. destruct (_ || _)%bool; [done|]. intros Hrun.
  apply (outcome_fold_invariant (fun r => length r = Z.to_nat n)) in Hrun; [done| |].
  - intros r i r' _ Hbody Hr.
    destruct (randint 0 _ _) as [start|]; [|done]. rewrite bind_Return in Hbody.
    destruct (assign_row _ _) as [row|]; [|done]. rewrite bind_Return in Hbody.
    injection Hbody as <-. by rewrite length_insert.
  - by rewrite length_replicate.
Qed.

Lemma populate_song_spec env cfg database id_to_info i path song_name artist_name
    database' id_to_info' :
  populate_song env cfg (database, id_to_info) (i, (path, (song_name, artist_name))) =
    Return (database', id_to_info') ->
  id_to_info' = id_to_info ++ [(song_name, artist_name)] /\
  exists fingerprints,
    database' = Nat.iter 20 (store_fingerprint fingerprints (Z.of_nat i)) database.
Proof.
  unfold populate_song.
  destruct (samples_file env path) as [[audio rate]|]; [|done]. rewrite bind_Return.
  destruct (random_samples _ _ _ _ _) as [samples|] eqn:Hsamples; [|done].
  rewrite bind_Return. apply random_samples_length in Hsamples.
  destruct (outcome_fold _ samples database) as [db1|] eqn:Hclips; [|done].
  rewrite bind_Return. intros [= <- <-]. split; [done|].
  apply populate_clips_spec in Hclips as [[-> _]|[fingerprints ->]]; [done|].
  exists fingerprints. by rewrite Hsamples.
Qed.

Lemma songs_below_iter m n fingerprints i database :
  (i < m)%nat -> songs_below m database ->
  songs_below m (Nat.iter n (store_fingerprint fingerprints (Z.of_nat i)) database).
Proof.
  intros Hi Hdb. induction n as [|n IH]; simpl; [done|]. by apply songs_below_store.
Qed.

Lemma stored_in_twenties_iter fingerprints songID database :
  stored_in_twenties database ->
  stored_in_twenties (Nat.iter 20 (store_fingerprint fingerprints songID) database).
Proof.
  intros Hdb key x. destruct (Hdb key x) as [q Hq].
  exists (q + copies x (entries_for songID key (concat fingerprints)))%nat.
  rewrite iter_store_entries, copies_app, copies_concat_replicate, Hq. lia.
Qed.

Lemma populate_fold_spec env cfg (items : list (string * (string * string))) :
  forall (start : nat) database id_to_info database' id_to_info',
    outcome_fold (populate_song env cfg) (zip (seq start (length items)) items)
                 (database, id_to_info) = Return (database', id_to_info') ->
    length id_to_info = start ->
    songs_below start database ->
    stored_in_twenties database ->
    id_to_info' = id_to_info ++ map snd items /\
    songs_below (length id_to_info') database' /\
    stored_in_twenties database'.
Proof.
  induction items as [|[path [song_name artist_name]] items IH];
    intros start database id_to_info database' id_to_info' Hrun Hlen Hbelow Htw.
  - simpl in Hrun. injection Hrun as <- <-. rewrite app_nil_r, Hlen. done.
  - cbn [length seq zip zip_with outcome_fold] in Hrun.
    destruct (populate_song env cfg (database, id_to_info)
                (start, (path, (song_name, artist_name)))) as [[db1 info1]|] eqn:Hsong;
      [|done].
    rewrite bind_Return in Hrun.
    apply populate_song_spec in Hsong as [-> [fingerprints ->]].
    apply IH in Hrun as (-> & Hb & Ht).
    + split; [|done]. rewrite <- app_assoc. done.
    + rewrite length_app. simpl. lia.
    + apply songs_below_iter; [lia|]. apply (songs_below_mono start); [lia|done].
    + by apply stored_in_twenties_iter.
Qed.

Lemma map_snd_zip3 (a b c : list string) :
  map snd (zip a (zip b c)) =
    take (length a) (zip b c).
Proof.
  revert b c. induction a as [|x a IH]; intros b c; [done|].
  destruct (zip b c) as [|y l] eqn:Hz; [by destruct b, c|].
  destruct b as [|y1 b]; [done|]. destruct c as [|y2 c]; [done|].
  simpl in *. injection Hz as <- <-. by rewrite IH.
Qed.

Lemma populate_database_invariants env cfg database_path id_path song_paths song_names
    artist_names database id_to_info :
  populate_database env cfg database_path id_path song_paths song_names artist_names =
    Return (database, id_to_info) ->
  id_to_info = take (length song_paths) (zip song_names artist_names) /\
  songs_below (length id_to_info) database /\
  stored_in_twenties database.
Proof.
  unfold populate_database, enumerate. intros Hrun.
  apply populate_fold_spec in Hrun as (-> & Hb & Ht).
  - cbn [app] in *. rewrite map_snd_zip3 in *. done.
  - done.
  - intros key sid ts Hin. unfold lookup_entries in Hin. by rewrite lookup_empty in Hin.
  - intros key x. exists 0%nat. unfold lookup_entries. by rewrite lookup_empty.
Qed.

Lemma py_getitem_in_range {A : Type} (l : list A) (i : Z) :
  (0 <= i < Z.of_nat (length l))%Z -> is_Some (py_getitem l i).
Proof.
  intros Hi. unfold py_getitem. replace (0 <=? i)%Z with true by lia.
  destruct (nth_error l (Z.to_nat i)) eqn:Hn; [done|].
  apply nth_error_None in Hn. lia.
Qed.

(** [X19] When [populate_database] completes, the catalog lists the
    (song name, artist name) pairs of the songs in input order, cut to the
    shortest of the three input lists; every song identifier in the store is
    an index of the catalog; and therefore no query against that store and
    catalog raises [IndexError]. *)
Theorem populate_database_catalog (env : environment) (cfg : configs)
    (database_path id_path : string) (song_paths song_names artist_names : list string)
    (database : gmap (Z * Z * Z) (list (Z * Z))) (id_to_info : list (string * string)) :
  populate_database env cfg database_path id_path song_paths song_names artist_names =
    Return (database, id_to_info) ->
  id_to_info = take (length song_paths) (zip song_names artist_names) /\
  (forall key songID ts,
      In (songID, ts) (lookup_entries database key) ->
      (0 <= songID < Z.of_nat (length id_to_info))%Z) /\
  (forall fingerprints,
      fst (query_database fingerprints database id_to_info) <> Raise IndexError).
Proof.
  intros Hrun. apply populate_database_invariants in Hrun as (Hinfo & Hbelow & _).
  split; [done|]. split; [exact Hbelow|].
  intros fingerprints. rewrite query_database_unfold. cbn [fst].
  rewrite query_decision_spec.
  set (hits := query_hits fingerprints database).
  destruct (py_max (fun k => votes k hits) (first_occurrences hits)) as [w|e] eqn:Hmax.
  - assert (In w hits) as Hw.
    { apply py_max_first_max, first_max_in, list_elem_of_In in Hmax.
      apply first_occurrences_from_elem in Hmax as [Hmax|Hmax];
        [by apply elem_of_nil in Hmax|by apply list_elem_of_In]. }
    apply in_query_hits in Hw as (key & tc & ts & _ & Hst & _).
    apply Hbelow in Hst. apply py_getitem_in_range in Hst as [info Hinfo'].
    rewrite Hinfo'. discriminate.
  - destruct (first_occurrences hits); [|discriminate]. simpl in Hmax.
    injection Hmax as <-. discriminate.
Qed.

Lemma populate_database_catalog_witness :
  snd silent_populated =
    take (length ["a.mp3"; "b.mp3"])
         (zip ["Blinding Lights"; "Eine kleine Nachtmusik"]
              ["The Weeknd"; "Wolfgang Amadeus Mozart"; "Frank Sinatra"]).
Proof.
  apply (populate_database_catalog silent_env ridge_cfg "database" "songids"
           ["a.mp3"; "b.mp3"] ["Blinding Lights"; "Eine kleine Nachtmusik"]
           ["The Weeknd"; "Wolfgang Amadeus Mozart"; "Frank Sinatra"]
           (fst silent_populated) (snd silent_populated)).
  vm_compute. reflexivity.
Defined.

Lemma votes_copies (song d tc : Z) (entries : list (Z * Z)) :
  votes (song, d) (map (fun st => (fst st, (snd st - tc)%Z)) entries) =
    Z.of_nat (copies (song, (d + tc)%Z) entries).
Proof.
  unfold votes, copies. f_equal. induction entries as [|[sid ts] entries IH]; simpl; [done|].
  destruct (decide ((sid, (ts - tc)%Z) = (song, d))) as [Heq|Hne].
  - rewrite bool_decide_eq_true_2 by done.
    rewrite bool_decide_eq_true_2; [simpl; by rewrite IH|].
    injection Heq as <- <-. f_equal. lia.
  - rewrite bool_decide_eq_false_2 by done.
    rewrite bool_decide_eq_false_2; [done|].
    intros [= -> ->]. apply Hne. f_equal. lia.
Qed.

(** [X20] [populate_database] fingerprints the whole recording once
    per random clip, so when it completes every pair stored under a key is
    stored a multiple of 20 times, and every count a query against that
    store can tally is a multiple of 20. *)
Theorem populate_database_twenty_copies (env : environment) (cfg : configs)
    (database_path id_path : string) (song_paths song_names artist_names : list string)
    (database : gmap (Z * Z * Z) (list (Z * Z))) (id_to_info : list (string * string)) :
  populate_database env cfg database_path id_path song_paths song_names artist_names =
    Return (database, id_to_info) ->
  (forall key x, exists q, copies x (lookup_entries database key) = (20 * q)%nat) /\
  (forall fingerprints key,
      exists q, votes key (query_hits fingerprints database) = (20 * q)%Z).
Proof.
  intros Hrun. apply populate_database_invariants in Hrun as (_ & _ & Htw).
  split; [exact Htw|].
  intros fingerprints [song d]. unfold query_hits.
  induction (concat fingerprints) as [|[k tc] es IH]; simpl.
  - exists 0%Z. done.
  - destruct IH as [q Hq]. rewrite votes_app, Hq.
    unfold entry_hits. simpl. rewrite votes_copies.
    destruct (Htw k (song, (d + tc)%Z)) as [q' Hq']. rewrite Hq'.
    exists (Z.of_nat q' + q)%Z. lia.
Qed.

Lemma populate_database_twenty_copies_witness :
  exists q,
    copies (0, 1)%Z (lookup_entries (fst silent_populated) (0, 1, 1)%Z) = (20 * q)%nat.
Proof.
  apply (populate_database_twenty_copies silent_env ridge_cfg "database" "songids"
           ["a.mp3"; "b.mp3"] ["Blinding Lights"; "Eine kleine Nachtmusik"]
           ["The Weeknd"; "Wolfgang Amadeus Mozart"; "Frank Sinatra"]
           (fst silent_populated) (snd silent_populated)).
  vm_compute. reflexivity.
Defined.

Example silent_populated_entries :
  length (lookup_entries (fst silent_populated) (0, 1, 1)%Z) = 40%nat.
Proof. vm_compute. reflexivity. Qed.

Lemma filter_map_swap {A B : Type} (f : A -> B) (p : B -> bool) (l : list A) :
  List.filter p (map f l) = map f (List.filter (fun x => p (f x)) l).
Proof.
  induction l as [|a l IH]; simpl; [done|]. destruct (p (f a)); simpl; by rewrite IH.
Qed.

Lemma filter_filter_and {A : Type} (p q : A -> bool) (l : list A) :
  List.filter p (List.filter q l) = List.filter (fun x => q x && p x) l.
Proof.
  induction l as [|a l IH]; simpl; [done|].
  destruct (q a); simpl; [|done]. destruct (p a); simpl; by rewrite IH.
Qed.

(** [X10] Raising the cutoff only removes peaks: the peaks for a higher
    cutoff are the peaks for the lower one whose amplitude exceeds the higher
    cutoff, in the same order.  Enlarging the neighborhood only removes
    peaks as well: a peak for a set of offsets and a cutoff is a peak for any
    subset of the offsets and any lower cutoff. *)
Theorem peaks_monotone (data_2d : ndarray Q) (nbrhd_row_offsets nbrhd_col_offsets : list Z)
    (amp_min amp_min' : Q) :
  (amp_min <= amp_min')%Q ->
  _peaks data_2d nbrhd_row_offsets nbrhd_col_offsets amp_min' =
    List.filter (fun p => Qlt_bool amp_min' (getitem 0%Q data_2d (fst p) (snd p)))
                (_peaks data_2d nbrhd_row_offsets nbrhd_col_offsets amp_min) /\
  (forall row_offsets' col_offsets' r c,
      (forall dr dc, In (dr, dc) (zip nbrhd_row_offsets nbrhd_col_offsets) ->
                     In (dr, dc) (zip row_offsets' col_offsets')) ->
      In (r, c) (_peaks data_2d row_offsets' col_offsets' amp_min') ->
      In (r, c) (_peaks data_2d nbrhd_row_offsets nbrhd_col_offsets amp_min)).
Proof.
  intros Hle. split.
  - rewrite !peaks_filter, filter_map_swap, filter_filter_and. f_equal.
    apply filter_ext. intros [c r]. unfold is_peak, swap_pair, Qlt_bool. simpl.
    destruct (Qle_bool (getitem 0%Q data_2d r c) amp_min') eqn:E'; simpl.
    + by rewrite andb_false_r.
    + rewrite andb_true_r. apply Qle_bool_false_iff in E'.
      replace (Qle_bool (getitem 0%Q data_2d r c) amp_min) with false; [done|].
      symmetry. apply Qle_bool_false_iff. lra.
  - intros ro' co' r c Hsub Hin. apply in_peaks_iff in Hin as (Hb & Hcut & Hscan).
    apply in_peaks_iff. split; [done|]. split; [lra|].
    apply neighbor_scan_true. intros dr dc Hoff.
    apply (proj1 (neighbor_scan_true _ _ _ _) Hscan). by apply Hsub.
Qed.

Lemma peaks_monotone_witness :
  _peaks ridge_example [0; 0; 0]%Z [-1; 0; 1]%Z (8 # 1) =
    List.filter (fun p => Qlt_bool (8 # 1) (getitem 0%Q ridge_example (fst p) (snd p)))
                (_peaks ridge_example [0; 0; 0]%Z [-1; 0; 1]%Z (3 # 1)).
Proof.
  apply (peaks_monotone ridge_example [0; 0; 0]%Z [-1; 0; 1]%Z (3 # 1) (8 # 1)).
  vm_compute. discriminate.
Defined.

Lemma query_hits_on_keys fingerprints database database' :
  (forall k, In k (query_keys fingerprints) ->
             lookup_entries database' k = lookup_entries database k) ->
  query_hits fingerprints database' = query_hits fingerprints database.
Proof.
  unfold query_hits, query_keys.
  induction (concat fingerprints) as [|e es IH]; simpl; [done|]. intros H.
  rewrite IH by (intros; apply H; by right).
  unfold entry_hits. rewrite H by (by left). done.
Qed.

(** [X7] The result of [query_database] and its tally depend on the
    store only through the lists under the looked-up keys: two stores that
    agree on those keys give the same tally and the same result. *)
Theorem query_reads_looked_up_keys (fingerprints : list (list (Z * Z * Z * Z)))
    (database database' : gmap (Z * Z * Z) (list (Z * Z))) (songIDs : list (string * string)) :
  (forall k, In k (query_keys fingerprints) ->
             lookup_entries database' k = lookup_entries database k) ->
  fst (query_database fingerprints database' songIDs) =
    fst (query_database fingerprints database songIDs) /\
  fst (query_tallies fingerprints database') = fst (query_tallies fingerprints database).
Proof.
  intros Hsame. rewrite !query_database_unfold. cbn [fst].
  rewrite !query_decision_spec, !query_tallies_spec. cbn [fst].
  by rewrite (query_hits_on_keys fingerprints database database').
Qed.

Lemma query_reads_looked_up_keys_witness :
  fst (query_database noise_query (<[(9, 9, 9)%Z := [(7, 7)%Z]]> tied_store) two_songs) =
    fst (query_database noise_query tied_store two_songs).
Proof.
  apply (query_reads_looked_up_keys noise_query tied_store
           (<[(9, 9, 9)%Z := [(7, 7)%Z]]> tied_store) two_songs).
  intros k [<-|[]]. vm_compute. reflexivity.
Defined.
